(** * Tank Battle (src/tank_battle.py): a shallow embedding and its properties

    The game is a single-threaded loop over plain objects.  Integers are
    Python's unbounded [int] (here [Z]); the wall clock [time.time()] is read
    as a rational number of seconds (here [Q]), with the two thresholds 0.5
    and 0.1 read as the rationals 1/2 and 1/10.  Every call of [time.time()]
    consumes one reading of the clock, every call of [screen.getch()] in
    no-delay mode consumes at most one pending key: both live in the [World]
    that the small state monad [M] threads through the code.  Drawing only
    writes to the terminal and sleeping only lets time pass, so neither
    appears in the model.

    The rational clock is what the session is studied with.  At the
    threshold of [Bullet.update] the interpreter decides in binary64: the
    difference of two readings is rounded and the literal 0.1 is a double
    slightly above 1/10.  Module [Bullet64] is the bullet with its two time
    fields in binary64 and [update] as the interpreter computes it; the two
    models of [update] do the same to a bullet whenever their timing tests
    give the same answer. *)

From Stdlib Require Import PrimFloat.
From Stdlib Require Import ZArith QArith List Ascii String Bool Lia.
Import ListNotations.

Open Scope Z_scope.

(** ** The outside world: clock readings and pending keys *)

Record World := mkWorld {
  clock : nat -> Q;        (* the readings the next calls of time.time() return *)
  pending : list Z         (* keys typed and not yet read *)
}.

Definition M (A : Type) : Type := World -> A * World.

Definition ret {A} (a : A) : M A := fun w => (a, w).

Definition bind {A B} (m : M A) (k : A -> M B) : M B :=
  fun w => let (a, w') := m w in k a w'.

Declare Scope monad_scope.
Delimit Scope monad_scope with monad.
Notation "x <- m ;; k" := (bind m (fun x => k))
  (at level 61, m at next level, right associativity) : monad_scope.
Open Scope monad_scope.

(** [time.time()] *)
Definition time_time : M Q :=
  fun w => (clock w 0%nat, mkWorld (fun n => clock w (S n)) (pending w)).

(** [screen.getch()] after [screen.nodelay(True)]: the oldest pending key, or
    -1 at once when there is none. *)
Definition getch : M Z :=
  fun w => match pending w with
           | [] => (-1, w)
           | k :: ks => (k, mkWorld (clock w) ks)
           end.

Fixpoint mapM {A B} (f : A -> M B) (l : list A) : M (list B) :=
  match l with
  | [] => ret []
  | a :: r => b <- f a ;; bs <- mapM f r ;; ret (b :: bs)
  end.

(** [a > b] on clock values *)
Definition Qgtb (a b : Q) : bool := negb (Qle_bool a b).

(** ** class Direction(Enum) *)

Inductive Direction : Type := UP | DOWN | LEFT | RIGHT.

Definition value (d : Direction) : Z * Z :=
  match d with
  | UP => (0, -1)
  | DOWN => (0, 1)
  | LEFT => (-1, 0)
  | RIGHT => (1, 0)
  end.

(** ** class Bullet(GameObject) *)

Module Bullet.

Record t := mk {
  x : Z;
  y : Z;
  symbol : string;
  alive : bool;
  direction : Direction;
  speed : Q;
  last_move_time : Q
}.

(** [Bullet.__init__] *)
Definition init (x0 y0 : Z) (d : Direction) : M t :=
  now <- time_time ;;
  ret (mk x0 y0 "•" true d (1 # 10) now).

(** [bullet.alive = False] *)
Definition kill (self : t) : t :=
  mk (x self) (y self) (symbol self) false (direction self) (speed self)
     (last_move_time self).

(** [Bullet.update] *)
Definition update (self : t) (max_x max_y : Z) : M t :=
  current_time <- time_time ;;
  if Qgtb (current_time - last_move_time self) (speed self) then
    let (dx, dy) := value (direction self) in
    let x' := x self + dx in
    let y' := y self + dy in
    let moved := mk x' y' (symbol self) (alive self) (direction self)
                    (speed self) current_time in
    if (x' <=? 0) || (x' >=? max_x - 1) || (y' <=? 0) || (y' >=? max_y - 1)
    then ret (kill moved)
    else ret moved
  else ret self.

End Bullet.

(** ** class Bullet(GameObject), with the clock in binary64 *)

Module Bullet64.

Record t := mk {
  x : Z;
  y : Z;
  symbol : string;
  alive : bool;
  direction : Direction;
  speed : float;
  last_move_time : float
}.

(** The double that the literal [0.1] denotes. *)
Definition tenth : float := 0x1.999999999999ap-4.

(** [Bullet.__init__], [now] being the value that [time.time()] returns *)
Definition init (x0 y0 : Z) (d : Direction) (now : float) : t :=
  mk x0 y0 "•" true d tenth now.

(** [bullet.alive = False] *)
Definition kill (self : t) : t :=
  mk (x self) (y self) (symbol self) false (direction self) (speed self)
     (last_move_time self).

(** [Bullet.update], [current_time] being the value that [time.time()]
    returns: the subtraction and the comparison are those of binary64. *)
Definition update (self : t) (max_x max_y : Z) (current_time : float) : t :=
  if (speed self <? current_time - last_move_time self)%float then
    let (dx, dy) := value (direction self) in
    let x' := x self + dx in
    let y' := y self + dy in
    let moved := mk x' y' (symbol self) (alive self) (direction self)
                    (speed self) current_time in
    if (x' <=? 0) || (x' >=? max_x - 1) || (y' <=? 0) || (y' >=? max_y - 1)
    then kill moved
    else moved
  else self.

End Bullet64.

(** ** class Tank(GameObject) *)

Module Tank.

Record t := mk {
  x : Z;
  y : Z;
  symbol : string;
  alive : bool;
  direction : Direction;
  color_pair : Z;
  health : Z;
  last_shot_time : Q;
  shot_cooldown : Q
}.

(** [Tank.__init__] *)
Definition init (x0 y0 : Z) (s : string) (c : Z) : t :=
  mk x0 y0 s true UP c 3 0 (1 # 2).

Definition face (self : t) (d : Direction) (s : string) : t :=
  mk (x self) (y self) s (alive self) d (color_pair self) (health self)
     (last_shot_time self) (shot_cooldown self).

Definition place (self : t) (x' y' : Z) : t :=
  mk x' y' (symbol self) (alive self) (direction self) (color_pair self)
     (health self) (last_shot_time self) (shot_cooldown self).

(** [Tank.move] *)
Definition move (self : t) (dx dy max_x max_y : Z) : t :=
  let new_x := x self + dx in
  let new_y := y self + dy in
  if (0 <? new_x) && (new_x <? max_x - 1) && (0 <? new_y) && (new_y <? max_y - 1)
  then
    let self := place self new_x new_y in
    if dx >? 0 then face self RIGHT ">"
    else if dx <? 0 then face self LEFT "<"
    else if dy >? 0 then face self DOWN "v"
    else if dy <? 0 then face self UP "^"
    else self
  else self.

(** [self.last_shot_time = current_time] *)
Definition stamp (self : t) (current_time : Q) : t :=
  mk (x self) (y self) (symbol self) (alive self) (direction self)
     (color_pair self) (health self) current_time (shot_cooldown self).

(** [Tank.can_shoot]: the answer and the tank afterwards *)
Definition can_shoot (self : t) : M (bool * t) :=
  current_time <- time_time ;;
  if Qgtb (current_time - last_shot_time self) (shot_cooldown self) then
    ret (true, stamp self current_time)
  else ret (false, self).

(** [Tank.shoot]: the bullet or [None], and the tank afterwards *)
Definition shoot (self : t) : M (option Bullet.t * t) :=
  r <- can_shoot self ;;
  let (ok, self) := r in
  if ok then
    let (dx, dy) := value (direction self) in
    b <- Bullet.init (x self + dx) (y self + dy) (direction self) ;;
    ret (Some b, self)
  else ret (None, self).

(** [Tank.hit] *)
Definition hit (self : t) : t :=
  let h := health self - 1 in
  mk (x self) (y self) (symbol self)
     (if h <=? 0 then false else alive self)
     (direction self) (color_pair self) h (last_shot_time self)
     (shot_cooldown self).

End Tank.

(** ** class Obstacle(GameObject) *)

Module Obstacle.

Record t := mk {
  x : Z;
  y : Z;
  symbol : string;
  alive : bool;
  destructible : bool
}.

(** [Obstacle.__init__] *)
Definition init (x0 y0 : Z) : t := mk x0 y0 "#" true true.

(** [obstacle.alive = False] *)
Definition kill (self : t) : t :=
  mk (x self) (y self) (symbol self) false (destructible self).

End Obstacle.

(** ** Key codes *)

Definition ord (c : ascii) : Z := Z.of_N (N_of_ascii c).

(** The constants of the [curses] module the game reads. *)
Definition KEY_DOWN : Z := 258.
Definition KEY_UP : Z := 259.
Definition KEY_LEFT : Z := 260.
Definition KEY_RIGHT : Z := 261.

Definition newline : ascii := ascii_of_nat 10.

(** ** class Game *)

Module Game.

Record t := mk {
  max_x : Z;
  max_y : Z;
  player1 : Tank.t;
  player2 : Tank.t;
  bullets : list Bullet.t;
  obstacles : list Obstacle.t;
  game_over : bool;
  winner : option string
}.

Definition set_player1 (self : t) (p : Tank.t) : t :=
  mk (max_x self) (max_y self) p (player2 self) (bullets self)
     (obstacles self) (game_over self) (winner self).

Definition set_player2 (self : t) (p : Tank.t) : t :=
  mk (max_x self) (max_y self) (player1 self) p (bullets self)
     (obstacles self) (game_over self) (winner self).

Definition set_bullets (self : t) (bs : list Bullet.t) : t :=
  mk (max_x self) (max_y self) (player1 self) (player2 self) bs
     (obstacles self) (game_over self) (winner self).

Definition set_obstacles (self : t) (os : list Obstacle.t) : t :=
  mk (max_x self) (max_y self) (player1 self) (player2 self) (bullets self)
     os (game_over self) (winner self).

Definition set_game_over (self : t) : t :=
  mk (max_x self) (max_y self) (player1 self) (player2 self) (bullets self)
     (obstacles self) true (winner self).

(** [self.winner = name; self.game_over = True] *)
Definition declare (self : t) (name : string) : t :=
  mk (max_x self) (max_y self) (player1 self) (player2 self) (bullets self)
     (obstacles self) true (Some name).

(** [Game.__init__] with [Game.init_game]: the screen is [mx] columns by
    [my] rows, and [rand i] is the pair that the two calls of
    [random.randint] return in round [i] of the obstacle loop (in the source
    the first lies in [10, mx - 10] and the second in [3, my - 3]; nothing
    below depends on it). *)
Definition init_game (mx my : Z) (rand : nat -> Z * Z) : t :=
  mk mx my
     (Tank.init 5 (my / 2) "^" 1)
     (Tank.init (mx - 5) (my / 2) "^" 2)
     []
     (map (fun i => Obstacle.init (fst (rand i)) (snd (rand i))) (seq 0 20))
     false None.

(** [bullet = tank.shoot(); if bullet: self.bullets.append(bullet)] for
    player 1 and for player 2 *)
Definition fire1 (self : t) : M t :=
  r <- Tank.shoot (player1 self) ;;
  let (bullet, p) := r in
  let self := set_player1 self p in
  match bullet with
  | Some b => ret (set_bullets self (bullets self ++ [b]))
  | None => ret self
  end.

Definition fire2 (self : t) : M t :=
  r <- Tank.shoot (player2 self) ;;
  let (bullet, p) := r in
  let self := set_player2 self p in
  match bullet with
  | Some b => ret (set_bullets self (bullets self ++ [b]))
  | None => ret self
  end.

Definition move1 (self : t) (dx dy : Z) : t :=
  set_player1 self (Tank.move (player1 self) dx dy (max_x self) (max_y self)).

Definition move2 (self : t) (dx dy : Z) : t :=
  set_player2 self (Tank.move (player2 self) dx dy (max_x self) (max_y self)).

(** [Game.handle_input] *)
Definition handle_input (self : t) (key : Z) : M t :=
  if key =? -1 then ret self
  else if key =? ord "w"%char then ret (move1 self 0 (-1))
  else if key =? ord "s"%char then ret (move1 self 0 1)
  else if key =? ord "a"%char then ret (move1 self (-1) 0)
  else if key =? ord "d"%char then ret (move1 self 1 0)
  else if key =? ord " "%char then fire1 self
  else if key =? KEY_UP then ret (move2 self 0 (-1))
  else if key =? KEY_DOWN then ret (move2 self 0 1)
  else if key =? KEY_LEFT then ret (move2 self (-1) 0)
  else if key =? KEY_RIGHT then ret (move2 self 1 0)
  else if key =? ord newline then fire2 self
  else if key =? ord "q"%char then ret (set_game_over self)
  else ret self.

(** [tank.alive and bullet.x == tank.x and bullet.y == tank.y] *)
Definition strikes (b : Bullet.t) (p : Tank.t) : bool :=
  Tank.alive p && (Bullet.x b =? Tank.x p) && (Bullet.y b =? Tank.y p).

(** [obstacle.alive and bullet.x == obstacle.x and bullet.y == obstacle.y] *)
Definition strikes_obstacle (b : Bullet.t) (o : Obstacle.t) : bool :=
  Obstacle.alive o && (Bullet.x b =? Obstacle.x o) && (Bullet.y b =? Obstacle.y o).

(** The test of one bullet against player 1 (lines 190-195). *)
Definition collide_player1 (b : Bullet.t) (self : t) : Bullet.t * t :=
  if strikes b (player1 self) then
    let self := set_player1 self (Tank.hit (player1 self)) in
    let b := Bullet.kill b in
    if negb (Tank.alive (player1 self))
    then (b, declare self "Player 2")
    else (b, self)
  else (b, self).

(** The test of one bullet against player 2 (lines 198-203). *)
Definition collide_player2 (b : Bullet.t) (self : t) : Bullet.t * t :=
  if strikes b (player2 self) then
    let self := set_player2 self (Tank.hit (player2 self)) in
    let b := Bullet.kill b in
    if negb (Tank.alive (player2 self))
    then (b, declare self "Player 1")
    else (b, self)
  else (b, self).

(** The loop of one bullet over the obstacles (lines 206-210). *)
Fixpoint collide_obstacles (b : Bullet.t) (os : list Obstacle.t)
  : Bullet.t * list Obstacle.t :=
  match os with
  | [] => (b, [])
  | o :: r =>
      let (b1, o1) :=
        if strikes_obstacle b o
        then (Bullet.kill b, if Obstacle.destructible o then Obstacle.kill o else o)
        else (b, o) in
      let (b2, r2) := collide_obstacles b1 r in
      (b2, o1 :: r2)
  end.

(** The body of the loop over the bullets (lines 186-210). *)
Definition collide (b : Bullet.t) (self : t) : Bullet.t * t :=
  if negb (Bullet.alive b) then (b, self)
  else
    let (b, self) := collide_player1 b self in
    let (b, self) := collide_player2 b self in
    let (b, os) := collide_obstacles b (obstacles self) in
    (b, set_obstacles self os).

(** The loop over the bullets.  The bullet objects are updated in place in
    the source; here the updated bullets are collected in order. *)
Fixpoint collide_all (bs : list Bullet.t) (self : t) : list Bullet.t * t :=
  match bs with
  | [] => ([], self)
  | b :: r =>
      let (b', self) := collide b self in
      let (r', self) := collide_all r self in
      (b' :: r', self)
  end.

(** The two list comprehensions that end [check_collisions]. *)
Definition compact (bs : list Bullet.t) (self : t) : t :=
  mk (max_x self) (max_y self) (player1 self) (player2 self)
     (filter Bullet.alive bs)
     (filter Obstacle.alive (obstacles self))
     (game_over self) (winner self).

(** [Game.check_collisions] *)
Definition check_collisions (self : t) : t :=
  let (bs, self) := collide_all (bullets self) self in
  compact bs self.

(** The loop that opens [Game.update]: every bullet is updated in place. *)
Definition update_bullets (self : t) : M t :=
  bs <- mapM (fun b => Bullet.update b (max_x self) (max_y self)) (bullets self) ;;
  ret (set_bullets self bs).

(** [Game.update] *)
Definition update (self : t) : M t :=
  self <- update_bullets self ;;
  ret (check_collisions self).

(** One round of the loop of [Game.run]: read a key, handle it, update. *)
Definition round (self : t) : M t :=
  key <- getch ;;
  self <- handle_input self key ;;
  update self.

(** The loop of [Game.run], for at most [fuel] rounds. *)
Fixpoint run (fuel : nat) (self : t) : M t :=
  match fuel with
  | O => ret self
  | S fuel =>
      if game_over self then ret self
      else self <- round self ;; run fuel self
  end.

End Game.

(** * The vocabulary of the properties *)

(** ** The clock *)

(** What one call of [time.time()] leaves of the world. *)
Definition tick (w : World) : World :=
  mkWorld (fun n => clock w (S n)) (pending w).

(** ** Tank.move *)

Definition inside (max_x max_y x y : Z) : Prop :=
  0 < x < max_x - 1 /\ 0 < y < max_y - 1.

Definition unit_step (dx dy : Z) : Prop :=
  (dx = 0 /\ (dy = 1 \/ dy = -1)) \/ (dy = 0 /\ (dx = 1 \/ dx = -1)).

Definition glyph (d : Direction) : string :=
  match d with
  | UP => "^"
  | DOWN => "v"
  | LEFT => "<"
  | RIGHT => ">"
  end.

(** ** Tank.can_shoot and Tank.shoot *)

(** The bullet a tank that may fire creates when the clock reads [now]. *)
Definition muzzle (self : Tank.t) (now : Q) : Bullet.t :=
  Bullet.mk (Tank.x self + fst (value (Tank.direction self)))
            (Tank.y self + snd (value (Tank.direction self)))
            "•" true (Tank.direction self) (1 # 10) now.

(** What a tank goes through between two shots: moves, hits and calls of
    [shoot] that the cooldown refuses. *)
Inductive idle : Tank.t -> Tank.t -> Prop :=
| idle_refl t : idle t t
| idle_move t t' dx dy mx my :
    idle t t' -> idle t (Tank.move t' dx dy mx my)
| idle_hit t t' :
    idle t t' -> idle t (Tank.hit t')
| idle_miss t t' w r w' :
    idle t t' -> Tank.shoot t' w = ((None, r), w') -> idle t r.

(** ** Bullet.update *)

(** On or beyond the border *)
Definition outside (max_x max_y x y : Z) : Prop :=
  x <= 0 \/ x >= max_x - 1 \/ y <= 0 \/ y >= max_y - 1.

(** The bullet one cell further along its heading, moved at [now]. *)
Definition flown (b : Bullet.t) (now : Q) : Bullet.t :=
  Bullet.mk (Bullet.x b + fst (value (Bullet.direction b)))
            (Bullet.y b + snd (value (Bullet.direction b)))
            (Bullet.symbol b) (Bullet.alive b) (Bullet.direction b)
            (Bullet.speed b) now.

Definition expire (mx my : Z) (b : Bullet.t) : Bullet.t :=
  if (Bullet.x b <=? 0) || (Bullet.x b >=? mx - 1) ||
     (Bullet.y b <=? 0) || (Bullet.y b >=? my - 1)
  then Bullet.kill b else b.

(** ** One bullet against the tanks and the obstacles *)

(** A tank after the test against bullet [b] *)
Definition struck (b : Bullet.t) (p : Tank.t) : Tank.t :=
  if Game.strikes b p then Tank.hit p else p.

(** Bullet [b] hits tank [p] and that hit is the last one [p] can take. *)
Definition fells (b : Bullet.t) (p : Tank.t) : bool :=
  Game.strikes b p && negb (Tank.alive (Tank.hit p)).

(** An obstacle after the test against bullet [b] *)
Definition wreck (b : Bullet.t) (o : Obstacle.t) : Obstacle.t :=
  if Game.strikes_obstacle b o
  then (if Obstacle.destructible o then Obstacle.kill o else o)
  else o.

(** Bullet [b] finds something at its cell. *)
Definition meets (b : Bullet.t) (self : Game.t) : bool :=
  Game.strikes b (Game.player1 self) || Game.strikes b (Game.player2 self) ||
  existsb (Game.strikes_obstacle b) (Game.obstacles self).

(** What the pass of one live bullet leaves of the session. *)
Definition after (b : Bullet.t) (self : Game.t) : Game.t :=
  Game.mk (Game.max_x self) (Game.max_y self)
          (struck b (Game.player1 self)) (struck b (Game.player2 self))
          (Game.bullets self)
          (map (wreck b) (Game.obstacles self))
          (fells b (Game.player1 self) || fells b (Game.player2 self) ||
           Game.game_over self)
          (if fells b (Game.player2 self) then Some "Player 1"%string
           else if fells b (Game.player1 self) then Some "Player 2"%string
           else Game.winner self).

(** The bullet and the session after the pass of any bullet, dead or alive. *)
Definition spent (b : Bullet.t) (self : Game.t) : Bullet.t :=
  if Bullet.alive b && meets b self then Bullet.kill b else b.

Definition pass (b : Bullet.t) (self : Game.t) : Game.t :=
  if Bullet.alive b then after b self else self.

(** ** Health *)

Definition tank_ok (p : Tank.t) : Prop :=
  0 <= Tank.health p <= 3 /\ Tank.alive p = (0 <? Tank.health p).

(** Health and liveness of both tanks are the same in two sessions. *)
Definition same_vitals (g g' : Game.t) : Prop :=
  Tank.health (Game.player1 g') = Tank.health (Game.player1 g) /\
  Tank.alive (Game.player1 g') = Tank.alive (Game.player1 g) /\
  Tank.health (Game.player2 g') = Tank.health (Game.player2 g) /\
  Tank.alive (Game.player2 g') = Tank.alive (Game.player2 g).

Definition players_ok (g : Game.t) : Prop :=
  tank_ok (Game.player1 g) /\ tank_ok (Game.player2 g).

(** No tank has more health in [g'] than in [g]. *)
Definition no_healing (g g' : Game.t) : Prop :=
  Tank.health (Game.player1 g') <= Tank.health (Game.player1 g) /\
  Tank.health (Game.player2 g') <= Tank.health (Game.player2 g).

(** ** Sessions *)

(** The states a session goes through: the one [init_game] builds, and the
    one each round of the loop of [run] leaves, whatever the clock reads and
    whatever keys are pending. *)
Inductive reachable : Game.t -> Prop :=
| reach_init mx my rand : reachable (Game.init_game mx my rand)
| reach_round g w :
    reachable g -> Game.game_over g = false -> reachable (fst (Game.round g w)).

(** [g'] comes after [g] in a session. *)
Inductive later (g : Game.t) : Game.t -> Prop :=
| later_now : later g g
| later_round g' w :
    later g g' -> Game.game_over g' = false -> later g (fst (Game.round g' w)).

(** ** Compaction *)

(** Bullet [c] leaves obstacle [o] alone: it is dead, or [o] is dead or
    somewhere else. *)
Definition spares (o : Obstacle.t) (c : Bullet.t) : Prop :=
  Bullet.alive c && Game.strikes_obstacle c o = false.

(** ** A tank brought down *)

(** Tank [me] is down in [s], the game is over, and the winner is [name]
    unless tank [foe] is down as well. *)
Definition felled (me foe : Game.t -> Tank.t) (name : string) (s : Game.t) : Prop :=
  Tank.health (me s) = 0 /\
  Tank.alive (me s) = false /\
  Game.game_over s = true /\
  (Tank.alive (foe s) = true -> Game.winner s = Some name).

(** ** The session that collision resolution receives *)

(** A round of the loop up to the call of [check_collisions]. *)
Definition before_collisions (self : Game.t) : M Game.t :=
  key <- getch ;;
  self <- Game.handle_input self key ;;
  Game.update_bullets self.

(** The states that [check_collisions] is called on in a session. *)
Definition resolving (g : Game.t) : Prop :=
  exists g0 w,
    reachable g0 /\ Game.game_over g0 = false /\ g = fst (before_collisions g0 w).

(** The clock that reads the listed values in turn. *)
Definition readings (l : list Q) : nat -> Q := fun n => nth n l 0%Q.

(** *** A duel

    On a screen of 20 by 8 with all obstacles out of the way, player 1 walks
    right to (9,4) and player 2 walks left to (11,4).  Three times player 1
    fires, player 2 fires in the next round, and in the round after that
    both bullets move and each hits the tank it was aimed at. *)
Definition volley (t : Q) : list Q :=
  [t; t; t;
   t + (1 # 20); t + (1 # 20); t + (1 # 20); t + (1 # 20);
   t + (1 # 5); t + (1 # 5)]%Q.

(** A key that is bound to nothing: a round that reads it handles no input. *)
Definition idle_key : Z := ord "x".

Definition duel_world : World :=
  mkWorld (readings (volley 1 ++ volley 2 ++ volley 3))
          [ord "d"; ord "d"; ord "d"; ord "d";
           KEY_LEFT; KEY_LEFT; KEY_LEFT; KEY_LEFT;
           ord " "; ord newline; idle_key;
           ord " "; ord newline; idle_key;
           ord " "; ord newline; idle_key].

Definition duel_init : Game.t := Game.init_game 20 8 (fun _ => (10, 3)).

(** The session when the last round of the duel calls [check_collisions]. *)
Definition duel : Game.t :=
  let (g, w) := Game.run 16 duel_init duel_world in
  fst (before_collisions g w).

(** *** An ambush

    On the same screen one obstacle stands at (10,4).  Player 1 walks right
    onto its cell, player 2 takes one step left and fires along the row; the
    clock reads 0.2 s more at every call, so the bullet moves in every round
    and reaches (10,4) in the ninth. *)
Definition ambush_world : World :=
  mkWorld (fun n => 1 + inject_Z (Z.of_nat n) * (1 # 5))%Q
          [ord "d"; ord "d"; ord "d"; ord "d"; ord "d"; KEY_LEFT; ord newline].

Definition ambush_init : Game.t :=
  Game.init_game 20 8 (fun i => match i with O => (10, 4) | _ => (10, 3) end).

(** The session when the ninth round calls [check_collisions]. *)
Definition ambush : Game.t :=
  let (g, w) := Game.run 8 ambush_init ambush_world in
  fst (before_collisions g w).

(** ** Firing *)

(** A tank fires and the bullet, if any, is advanced three times with
    nothing in its way. *)
Definition fire_then_fly (self : Tank.t) (mx my : Z) : M (option Bullet.t) :=
  r <- Tank.shoot self ;;
  match fst r with
  | None => ret None
  | Some b =>
      b <- Bullet.update b mx my ;;
      b <- Bullet.update b mx my ;;
      b <- Bullet.update b mx my ;;
      ret (Some b)
  end.

(** Tank A of the scenario: at (5,10), heading up, never fired. *)
Definition tank_A : Tank.t := Tank.init 5 10 "^" 1.

(** ** Bullets born on the border *)

Definition on_border (mx my x y : Z) : Prop :=
  x = 0 \/ x = mx - 1 \/ y = 0 \/ y = my - 1.

(** ** Input *)

Inductive Player : Type := Player1 | Player2.

(** The logical actions of section 6 of the design: a step or a shot of one
    player, or the global quit. *)
Inductive Action : Type :=
| Step (p : Player) (d : Direction)
| Fire (p : Player)
| Quit.

(** The key binding: the action a key stands for, if any. *)
Definition action_of_key (key : Z) : option Action :=
  if key =? ord "w" then Some (Step Player1 UP)
  else if key =? ord "s" then Some (Step Player1 DOWN)
  else if key =? ord "a" then Some (Step Player1 LEFT)
  else if key =? ord "d" then Some (Step Player1 RIGHT)
  else if key =? ord " " then Some (Fire Player1)
  else if key =? KEY_UP then Some (Step Player2 UP)
  else if key =? KEY_DOWN then Some (Step Player2 DOWN)
  else if key =? KEY_LEFT then Some (Step Player2 LEFT)
  else if key =? KEY_RIGHT then Some (Step Player2 RIGHT)
  else if key =? ord newline then Some (Fire Player2)
  else if key =? ord "q" then Some Quit
  else None.

(** What an action does to the session. *)
Definition perform (a : Action) (self : Game.t) : M Game.t :=
  match a with
  | Step Player1 d => ret (Game.move1 self (fst (value d)) (snd (value d)))
  | Step Player2 d => ret (Game.move2 self (fst (value d)) (snd (value d)))
  | Fire Player1 => Game.fire1 self
  | Fire Player2 => Game.fire2 self
  | Quit => ret (Game.set_game_over self)
  end.

(** The parts of the session an action leaves alone. *)
Definition untouched (a : Action) (g g' : Game.t) : Prop :=
  match a with
  | Step Player1 _ =>
      Game.player2 g' = Game.player2 g /\ Game.bullets g' = Game.bullets g /\
      Game.game_over g' = Game.game_over g
  | Step Player2 _ =>
      Game.player1 g' = Game.player1 g /\ Game.bullets g' = Game.bullets g /\
      Game.game_over g' = Game.game_over g
  | Fire Player1 =>
      Game.player2 g' = Game.player2 g /\ Game.game_over g' = Game.game_over g /\
      (Game.bullets g' = Game.bullets g \/
       exists b, Game.bullets g' = Game.bullets g ++ [b])
  | Fire Player2 =>
      Game.player1 g' = Game.player1 g /\ Game.game_over g' = Game.game_over g /\
      (Game.bullets g' = Game.bullets g \/
       exists b, Game.bullets g' = Game.bullets g ++ [b])
  | Quit =>
      Game.player1 g' = Game.player1 g /\ Game.player2 g' = Game.player2 g /\
      Game.bullets g' = Game.bullets g
  end.

(** ** Properties of both tanks *)

(** Property [Q] of a tank on a playfield holds of both tanks of a session. *)
Definition both (Q : Z -> Z -> Tank.t -> Prop) (g : Game.t) : Prop :=
  Q (Game.max_x g) (Game.max_y g) (Game.player1 g) /\
  Q (Game.max_x g) (Game.max_y g) (Game.player2 g).

(** The tank stands strictly inside the border. *)
Definition tank_inside (mx my : Z) (p : Tank.t) : Prop :=
  inside mx my (Tank.x p) (Tank.y p).

(** The glyph of the tank is the marker of its heading. *)
Definition tank_glyph (mx my : Z) (p : Tank.t) : Prop :=
  Tank.symbol p = glyph (Tank.direction p).

(** ** The end of the game *)

(** Either both tanks are alive and nobody has won, or a tank is down, the
    game is over and the other tank is the winner. *)
Definition settled (g : Game.t) : Prop :=
  (Tank.alive (Game.player1 g) = true /\ Tank.alive (Game.player2 g) = true /\
   Game.winner g = None) \/
  (Tank.alive (Game.player1 g) = false /\ Game.game_over g = true /\
   Game.winner g = Some "Player 2"%string) \/
  (Tank.alive (Game.player2 g) = false /\ Game.game_over g = true /\
   Game.winner g = Some "Player 1"%string).

(** ** All bullets of a tick against one obstacle *)

(** Obstacle [o] after the passes of the bullets [bs], in order. *)
Definition wreck_all (bs : list Bullet.t) (o : Obstacle.t) : Obstacle.t :=
  fold_left (fun o b => if Bullet.alive b then wreck b o else o) bs o.

(** ** What a hit leaves of a tank *)

(** The fields of a tank that a hit leaves alone. *)
Definition same_stand (p p' : Tank.t) : Prop :=
  Tank.x p' = Tank.x p /\ Tank.y p' = Tank.y p /\
  Tank.direction p' = Tank.direction p /\ Tank.symbol p' = Tank.symbol p /\
  Tank.last_shot_time p' = Tank.last_shot_time p /\
  Tank.shot_cooldown p' = Tank.shot_cooldown p /\
  Tank.color_pair p' = Tank.color_pair p.

(** ** A bullet over several rounds *)

(** [n] calls of [Bullet.update] on one bullet, one after the other. *)
Fixpoint updates (n : nat) (b : Bullet.t) (mx my : Z) : M Bullet.t :=
  match n with
  | O => ret b
  | S n => b <- Bullet.update b mx my ;; updates n b mx my
  end.

(** ** Settings *)

(** The tank has the cooldown that [Tank.__init__] sets. *)
Definition tank_cooldown (mx my : Z) (p : Tank.t) : Prop :=
  Tank.shot_cooldown p = (1 # 2)%Q.

(** ** The two models of a bullet *)

(** What a bullet is apart from its two time fields. *)
Definition shape (b : Bullet.t) : Z * Z * string * bool * Direction :=
  (Bullet.x b, Bullet.y b, Bullet.symbol b, Bullet.alive b, Bullet.direction b).

Definition shape64 (b : Bullet64.t) : Z * Z * string * bool * Direction :=
  (Bullet64.x b, Bullet64.y b, Bullet64.symbol b, Bullet64.alive b,
   Bullet64.direction b).

(** * Properties *)

(** ** Clock comparisons *)

Lemma Qgtb_true (a b : Q) : Qgtb a b = true <-> (b < a)%Q.
Proof.
  unfold Qgtb. rewrite negb_true_iff. split; intro H.
  - apply Qnot_le_lt. intro L. apply Qle_bool_iff in L. congruence.
  - destruct (Qle_bool a b) eqn:E; [|reflexivity].
    apply Qle_bool_iff in E. exfalso. exact (Qlt_not_le _ _ H E).
Qed.

Lemma Qgtb_false (a b : Q) : Qgtb a b = false <-> ~ (b < a)%Q.
Proof.
  rewrite <- Qgtb_true. destruct (Qgtb a b); split; intro H; congruence.
Qed.

(** ** Tank.move *)

Lemma inside_test (mx my x y : Z) :
  (0 <? x) && (x <? mx - 1) && (0 <? y) && (y <? my - 1) = true <-> inside mx my x y.
Proof.
  unfold inside. rewrite !andb_true_iff, !Z.ltb_lt. tauto.
Qed.

Lemma move_rejected (self : Tank.t) (dx dy mx my : Z) :
  ~ inside mx my (Tank.x self + dx) (Tank.y self + dy) ->
  Tank.move self dx dy mx my = self.
Proof.
  intro H. unfold Tank.move.
  destruct ((0 <? Tank.x self + dx) && (Tank.x self + dx <? mx - 1) &&
            (0 <? Tank.y self + dy) && (Tank.y self + dy <? my - 1)) eqn:E.
  - apply inside_test in E. contradiction.
  - reflexivity.
Qed.

Lemma move_accepted (self : Tank.t) (d : Direction) (mx my : Z) :
  inside mx my (Tank.x self + fst (value d)) (Tank.y self + snd (value d)) ->
  Tank.move self (fst (value d)) (snd (value d)) mx my =
  Tank.face (Tank.place self (Tank.x self + fst (value d))
                             (Tank.y self + snd (value d))) d (glyph d).
Proof.
  intro H. unfold Tank.move.
  apply inside_test in H. rewrite H.
  destruct d; reflexivity.
Qed.

Lemma unit_step_value (dx dy : Z) :
  unit_step dx dy -> exists d, value d = (dx, dy).
Proof.
  intros [[-> [-> | ->]] | [-> [-> | ->]]].
  - exists DOWN. reflexivity.
  - exists UP. reflexivity.
  - exists RIGHT. reflexivity.
  - exists LEFT. reflexivity.
Qed.

(** C3: for a unit step along one axis, a move whose target is on or beyond
    the border changes nothing of the tank; an accepted move puts the tank on
    the target cell, which lies strictly inside the border, turns the heading
    to the direction of the step and sets the glyph of that direction, and
    touches nothing else. *)
Theorem move_unit_step (self : Tank.t) (dx dy mx my : Z) :
  unit_step dx dy ->
  let self' := Tank.move self dx dy mx my in
  (~ inside mx my (Tank.x self + dx) (Tank.y self + dy) -> self' = self) /\
  (inside mx my (Tank.x self + dx) (Tank.y self + dy) ->
     Tank.x self' = Tank.x self + dx /\
     Tank.y self' = Tank.y self + dy /\
     0 < Tank.x self' < mx - 1 /\
     0 < Tank.y self' < my - 1 /\
     value (Tank.direction self') = (dx, dy) /\
     Tank.symbol self' = glyph (Tank.direction self') /\
     Tank.alive self' = Tank.alive self /\
     Tank.health self' = Tank.health self /\
     Tank.last_shot_time self' = Tank.last_shot_time self /\
     Tank.shot_cooldown self' = Tank.shot_cooldown self /\
     Tank.color_pair self' = Tank.color_pair self).
Proof.
  intros U self'. split.
  - intro H. now apply move_rejected.
  - intro H. destruct (unit_step_value dx dy U) as [d Hd].
    assert (Ex : dx = fst (value d)) by now rewrite Hd.
    assert (Ey : dy = snd (value d)) by now rewrite Hd.
    subst self'. rewrite Ex, Ey in H |- *. rewrite (move_accepted self d mx my H).
    destruct H as [Hx Hy]. cbn [Tank.face Tank.place Tank.x Tank.y Tank.direction
      Tank.symbol Tank.alive Tank.health Tank.last_shot_time Tank.shot_cooldown
      Tank.color_pair].
    repeat split; try tauto. now destruct d.
Qed.

Lemma move_unit_step_witness :
  unit_step 1 0 /\
  inside 40 20 (5 + 1) (10 + 0) /\
  Tank.x (Tank.move (Tank.init 5 10 "^" 1) 1 0 40 20) = 5 + 1 /\
  value (Tank.direction (Tank.move (Tank.init 5 10 "^" 1) 1 0 40 20)) = (1, 0).
Proof.
  assert (U : unit_step 1 0) by (right; split; [reflexivity | left; reflexivity]).
  assert (I : inside 40 20 (5 + 1) (10 + 0)) by (unfold inside; lia).
  destruct (move_unit_step (Tank.init 5 10 "^" 1) 1 0 40 20 U) as [_ H].
  specialize (H I). destruct H as (Hx & _ & _ & _ & Hd & _).
  split; [exact U|]. split; [exact I|]. split; [exact Hx | exact Hd].
Defined.

(** ** Tank.can_shoot and Tank.shoot *)

Lemma can_shoot_eq (self : Tank.t) (w : World) :
  Tank.can_shoot self w =
  (if Qgtb (clock w 0%nat - Tank.last_shot_time self) (Tank.shot_cooldown self)
   then (true, Tank.stamp self (clock w 0%nat))
   else (false, self),
   tick w).
Proof.
  unfold Tank.can_shoot, bind, time_time, ret, tick. cbn.
  now destruct (Qgtb _ _).
Qed.

Lemma shoot_eq (self : Tank.t) (w : World) :
  Tank.shoot self w =
  if Qgtb (clock w 0%nat - Tank.last_shot_time self) (Tank.shot_cooldown self)
  then ((Some (muzzle self (clock w 1%nat)), Tank.stamp self (clock w 0%nat)),
        tick (tick w))
  else ((None, self), tick w).
Proof.
  unfold Tank.shoot, bind. rewrite can_shoot_eq.
  destruct (Qgtb _ _); [|reflexivity].
  unfold muzzle, Bullet.init, bind, time_time, ret, tick. cbn.
  now destruct (Tank.direction self).
Qed.

Lemma move_keeps_timer (self : Tank.t) (dx dy mx my : Z) :
  Tank.last_shot_time (Tank.move self dx dy mx my) = Tank.last_shot_time self /\
  Tank.shot_cooldown (Tank.move self dx dy mx my) = Tank.shot_cooldown self.
Proof.
  unfold Tank.move.
  destruct (_ && _); [|split; reflexivity].
  destruct (dx >? 0); [split; reflexivity|].
  destruct (dx <? 0); [split; reflexivity|].
  destruct (dy >? 0); [split; reflexivity|].
  destruct (dy <? 0); split; reflexivity.
Qed.

Lemma idle_keeps_timer (t t' : Tank.t) :
  idle t t' ->
  Tank.last_shot_time t' = Tank.last_shot_time t /\
  Tank.shot_cooldown t' = Tank.shot_cooldown t.
Proof.
  induction 1 as [t | t t' dx dy mx my _ IH | t t' _ IH | t t' w r w' _ IH E].
  - split; reflexivity.
  - destruct (move_keeps_timer t' dx dy mx my) as [-> ->]. exact IH.
  - exact IH.
  - rewrite shoot_eq in E. destruct (Qgtb _ _); [discriminate|].
    injection E as <- _. exact IH.
Qed.

(** C4: with the cooldown of 0.5 s, [can_shoot] at clock reading [now] answers
    true and records [now] as the time of the last shot when
    [now - last_shot_time > 0.5], and answers false and leaves the tank as it
    is otherwise; hence two successful shots of one tank with nothing but
    moves, hits and refused shots in between lie more than 0.5 s apart. *)
Theorem can_shoot_cooldown (self : Tank.t) (w : World) :
  Tank.shot_cooldown self = (1 # 2)%Q ->
  let now := clock w 0%nat in
  ((1 # 2 < now - Tank.last_shot_time self)%Q ->
     Tank.can_shoot self w = ((true, Tank.stamp self now), tick w)) /\
  (~ (1 # 2 < now - Tank.last_shot_time self)%Q ->
     Tank.can_shoot self w = ((false, self), tick w)) /\
  (forall b1 t1 w1 t2 w2 b2 t3 w3,
     Tank.shoot self w = ((Some b1, t1), w1) ->
     idle t1 t2 ->
     Tank.shoot t2 w2 = ((Some b2, t3), w3) ->
     (1 # 2 < clock w2 0%nat - now)%Q).
Proof.
  intros Hcd now. repeat split.
  - intro H. rewrite can_shoot_eq, Hcd. apply Qgtb_true in H. fold now.
    now rewrite H.
  - intro H. rewrite can_shoot_eq, Hcd. apply Qgtb_false in H. fold now.
    now rewrite H.
  - intros b1 t1 w1 t2 w2 b2 t3 w3 E1 I E2.
    rewrite shoot_eq in E1. destruct (Qgtb _ _); [|discriminate].
    injection E1 as _ <- _.
    destruct (idle_keeps_timer _ _ I) as [Hl Hc]. cbn in Hl, Hc.
    rewrite shoot_eq, Hl, Hc, Hcd in E2.
    destruct (Qgtb _ _) eqn:G; [|discriminate].
    now apply Qgtb_true in G.
Qed.

Lemma can_shoot_cooldown_witness :
  Tank.shot_cooldown (Tank.init 5 10 "^" 1) = (1 # 2)%Q /\
  Tank.can_shoot (Tank.init 5 10 "^" 1) (mkWorld (fun _ => 1%Q) []) =
  ((true, Tank.stamp (Tank.init 5 10 "^" 1) 1%Q), tick (mkWorld (fun _ => 1%Q) [])) /\
  (1 # 2 < clock (mkWorld (fun _ => 2%Q) []) 0%nat - 1)%Q.
Proof.
  pose proof (can_shoot_cooldown (Tank.init 5 10 "^" 1)
                (mkWorld (fun _ => 1%Q) []) eq_refl) as (H1 & _ & H3).
  split; [reflexivity|]. split.
  - apply H1. reflexivity.
  - eapply (H3 _ _ _ _ (mkWorld (fun _ => 2%Q) [])).
    + reflexivity.
    + apply idle_refl.
    + reflexivity.
Defined.

(** ** Bullet.update *)

Lemma outside_test (mx my x y : Z) :
  (x <=? 0) || (x >=? mx - 1) || (y <=? 0) || (y >=? my - 1) = true
  <-> outside mx my x y.
Proof.
  unfold outside. rewrite !orb_true_iff, !Z.leb_le, !Z.geb_le. lia.
Qed.

Lemma update_eq (b : Bullet.t) (mx my : Z) (w : World) :
  Bullet.update b mx my w =
  (if Qgtb (clock w 0%nat - Bullet.last_move_time b) (Bullet.speed b)
   then expire mx my (flown b (clock w 0%nat))
   else b,
   tick w).
Proof.
  unfold Bullet.update, bind, time_time, tick, expire, flown. cbn.
  destruct (Qgtb _ _); [|reflexivity].
  destruct (Bullet.direction b); cbn; now destruct (_ || _).
Qed.

Lemma unit_value (d : Direction) :
  Z.abs (fst (value d)) + Z.abs (snd (value d)) = 1.
Proof. now destruct d. Qed.

Lemma expire_fields (mx my : Z) (b : Bullet.t) :
  Bullet.x (expire mx my b) = Bullet.x b /\
  Bullet.y (expire mx my b) = Bullet.y b /\
  Bullet.direction (expire mx my b) = Bullet.direction b /\
  Bullet.last_move_time (expire mx my b) = Bullet.last_move_time b /\
  Bullet.speed (expire mx my b) = Bullet.speed b /\
  Bullet.symbol (expire mx my b) = Bullet.symbol b.
Proof.
  unfold expire. destruct (_ || _); repeat split; reflexivity.
Qed.

Lemma expire_alive (mx my : Z) (b : Bullet.t) :
  Bullet.alive (expire mx my b) = true <->
  Bullet.alive b = true /\ ~ outside mx my (Bullet.x b) (Bullet.y b).
Proof.
  unfold expire.
  destruct (_ || _) eqn:E.
  - apply outside_test in E. cbn. split; [discriminate | tauto].
  - assert (N : ~ outside mx my (Bullet.x b) (Bullet.y b)).
    { intro O. apply outside_test in O. congruence. }
    tauto.
Qed.

(** C6: with the interval of 0.1 s, [update] at clock reading [now] moves the
    bullet by exactly one cell along its heading and records [now] when
    [now - last_move_time > 0.1], however long ago the last move was, and
    leaves the bullet as it is otherwise, the difference and the comparison
    being those that the code computes in binary64; the heading never
    changes; a bullet that was alive is dead afterwards exactly when it
    moved and its new position is on or beyond the border. *)
Theorem bullet64_update_step (b : Bullet64.t) (mx my : Z) (now : float) :
  Bullet64.speed b = Bullet64.tenth ->
  let moves := (Bullet64.tenth <? now - Bullet64.last_move_time b)%float in
  let b' := Bullet64.update b mx my now in
  Bullet64.direction b' = Bullet64.direction b /\
  (moves = false -> b' = b) /\
  (moves = true ->
     Bullet64.x b' = Bullet64.x b + fst (value (Bullet64.direction b)) /\
     Bullet64.y b' = Bullet64.y b + snd (value (Bullet64.direction b)) /\
     Z.abs (Bullet64.x b' - Bullet64.x b) + Z.abs (Bullet64.y b' - Bullet64.y b) = 1 /\
     Bullet64.last_move_time b' = now /\
     Bullet64.speed b' = Bullet64.speed b /\
     Bullet64.symbol b' = Bullet64.symbol b /\
     (Bullet64.alive b' = true <->
      Bullet64.alive b = true /\ ~ outside mx my (Bullet64.x b') (Bullet64.y b'))) /\
  (Bullet64.alive b = true ->
     (Bullet64.alive b' = false <->
      moves = true /\ outside mx my (Bullet64.x b') (Bullet64.y b'))).
Proof.
  intros Hs moves b'. subst moves b'. unfold Bullet64.update. rewrite Hs.
  destruct (Bullet64.tenth <? now - Bullet64.last_move_time b)%float.
  - pose proof (unit_value (Bullet64.direction b)) as U.
    destruct (value (Bullet64.direction b)) as [dx dy]. cbn [fst snd] in *.
    destruct ((Bullet64.x b + dx <=? 0) || (Bullet64.x b + dx >=? mx - 1) ||
              (Bullet64.y b + dy <=? 0) || (Bullet64.y b + dy >=? my - 1)) eqn:E.
    + apply outside_test in E.
      cbn [Bullet64.kill Bullet64.x Bullet64.y Bullet64.direction Bullet64.alive
           Bullet64.last_move_time Bullet64.speed Bullet64.symbol].
      split; [reflexivity|]. split; [discriminate|]. split.
      * intros _. repeat split; try lia; try discriminate; tauto.
      * intros _. split; [tauto | reflexivity].
    + assert (N : ~ outside mx my (Bullet64.x b + dx) (Bullet64.y b + dy)).
      { intro O. apply outside_test in O. congruence. }
      cbn [Bullet64.x Bullet64.y Bullet64.direction Bullet64.alive
           Bullet64.last_move_time Bullet64.speed Bullet64.symbol].
      split; [reflexivity|]. split; [discriminate|]. split.
      * intros _. repeat split; try lia; tauto.
      * intro A. rewrite A. split; [discriminate | tauto].
  - split; [reflexivity|]. split; [reflexivity|]. split; [discriminate|].
    intro A. rewrite A. split; [discriminate|]. intros [F _]. discriminate.
Qed.

Lemma bullet64_update_step_witness :
  Bullet64.speed (Bullet64.init 5 9 UP 1) = Bullet64.tenth /\
  Bullet64.direction (Bullet64.update (Bullet64.init 5 9 UP 1) 40 20 2) = UP /\
  Bullet64.y (Bullet64.update (Bullet64.init 5 9 UP 1) 40 20 2) = 9 + -1.
Proof.
  pose proof (bullet64_update_step (Bullet64.init 5 9 UP 1) 40 20 2 eq_refl)
    as (Hd & _ & Hm & _).
  split; [reflexivity|]. split; [exact Hd|].
  apply Hm. reflexivity.
Defined.

(** At the threshold: a bullet stamped at 0.0 and updated when the clock
    reads the double 0.1 has waited exactly the interval, not more, and
    stays where it is. *)
Lemma update64_at_the_threshold :
  Bullet64.update (Bullet64.init 38 5 RIGHT 0) 40 20 Bullet64.tenth =
  Bullet64.init 38 5 RIGHT 0.
Proof. reflexivity. Qed.

(** The two models of [update] do the same to the position, the glyph, the
    liveness and the heading of a bullet whenever the binary64 test and the
    rational test give the same answer. *)
Lemma update_same_shape (b64 : Bullet64.t) (b : Bullet.t) (mx my : Z)
      (now : float) (w : World) :
  shape64 b64 = shape b ->
  (Bullet64.speed b64 <? now - Bullet64.last_move_time b64)%float =
    Qgtb (clock w 0%nat - Bullet.last_move_time b) (Bullet.speed b) ->
  shape64 (Bullet64.update b64 mx my now) = shape (fst (Bullet.update b mx my w)).
Proof.
  intros S T. rewrite update_eq. cbn [fst]. unfold Bullet64.update. rewrite T.
  destruct (Qgtb _ _); [|exact S].
  unfold shape, shape64 in S. injection S as Ex Ey Es Ea Ed.
  unfold expire, flown.
  cbn [Bullet.x Bullet.y Bullet.symbol Bullet.alive Bullet.direction].
  rewrite Ex, Ey, Es, Ea, Ed.
  destruct (value (Bullet.direction b)) as [dx dy]. cbn [fst snd].
  now destruct (_ || _).
Qed.

(** ** One bullet against the tanks and the obstacles *)

Lemma kill_kill (b : Bullet.t) : Bullet.kill (Bullet.kill b) = Bullet.kill b.
Proof. reflexivity. Qed.

Lemma collide_obstacles_eq (os : list Obstacle.t) : forall b : Bullet.t,
  Game.collide_obstacles b os =
  (if existsb (Game.strikes_obstacle b) os then Bullet.kill b else b,
   map (wreck b) os).
Proof.
  induction os as [|o r IH]; intro b; [reflexivity|].
  cbn [Game.collide_obstacles existsb map]. unfold wreck at 1.
  destruct (Game.strikes_obstacle b o) eqn:S.
  - rewrite IH.
    change (Game.strikes_obstacle (Bullet.kill b)) with (Game.strikes_obstacle b).
    change (wreck (Bullet.kill b)) with (wreck b).
    cbn [orb]. rewrite kill_kill. now destruct (existsb _ r).
  - rewrite IH. reflexivity.
Qed.

Lemma collide_dead (b : Bullet.t) (self : Game.t) :
  Bullet.alive b = false -> Game.collide b self = (b, self).
Proof.
  intro H. unfold Game.collide. now rewrite H.
Qed.

Lemma strikes_kill (b : Bullet.t) (p : Tank.t) :
  Game.strikes (Bullet.kill b) p = Game.strikes b p.
Proof. reflexivity. Qed.

Lemma collide_player1_eq (b : Bullet.t) (self : Game.t) :
  Game.collide_player1 b self =
  if Game.strikes b (Game.player1 self)
  then (Bullet.kill b,
        Game.mk (Game.max_x self) (Game.max_y self)
                (Tank.hit (Game.player1 self)) (Game.player2 self)
                (Game.bullets self) (Game.obstacles self)
                (negb (Tank.alive (Tank.hit (Game.player1 self))) ||
                 Game.game_over self)
                (if Tank.alive (Tank.hit (Game.player1 self))
                 then Game.winner self else Some "Player 2"%string))
  else (b, self).
Proof.
  unfold Game.collide_player1.
  destruct (Game.strikes b (Game.player1 self)); [|reflexivity].
  cbn [Game.set_player1 Game.player1].
  now destruct (Tank.alive (Tank.hit (Game.player1 self))).
Qed.

Lemma collide_player2_eq (b : Bullet.t) (self : Game.t) :
  Game.collide_player2 b self =
  if Game.strikes b (Game.player2 self)
  then (Bullet.kill b,
        Game.mk (Game.max_x self) (Game.max_y self)
                (Game.player1 self) (Tank.hit (Game.player2 self))
                (Game.bullets self) (Game.obstacles self)
                (negb (Tank.alive (Tank.hit (Game.player2 self))) ||
                 Game.game_over self)
                (if Tank.alive (Tank.hit (Game.player2 self))
                 then Game.winner self else Some "Player 1"%string))
  else (b, self).
Proof.
  unfold Game.collide_player2.
  destruct (Game.strikes b (Game.player2 self)); [|reflexivity].
  cbn [Game.set_player2 Game.player2].
  now destruct (Tank.alive (Tank.hit (Game.player2 self))).
Qed.

Lemma collide_live (b : Bullet.t) (self : Game.t) :
  Bullet.alive b = true ->
  Game.collide b self =
  (if meets b self then Bullet.kill b else b, after b self).
Proof.
  intro H. unfold Game.collide. rewrite H. cbn [negb].
  rewrite collide_player1_eq.
  destruct self as [mx my p1 p2 bs os go wn].
  unfold meets, after, struck, fells.
  cbn [Game.player1 Game.player2 Game.obstacles Game.max_x Game.max_y
       Game.bullets Game.game_over Game.winner].
  destruct (Game.strikes b p1) eqn:S1; rewrite collide_player2_eq;
    cbn [Game.player1 Game.player2 Game.obstacles Game.max_x Game.max_y
         Game.bullets Game.game_over Game.winner];
    rewrite ?strikes_kill;
    destruct (Game.strikes b p2) eqn:S2;
    rewrite collide_obstacles_eq;
    cbn [Game.player1 Game.player2 Game.obstacles Game.max_x Game.max_y
         Game.bullets Game.game_over Game.winner Game.set_obstacles andb orb];
    rewrite ?kill_kill;
    change (Game.strikes_obstacle (Bullet.kill b)) with (Game.strikes_obstacle b);
    change (wreck (Bullet.kill b)) with (wreck b);
    destruct (existsb (Game.strikes_obstacle b) os);
    try destruct (Tank.alive (Tank.hit p1));
    try destruct (Tank.alive (Tank.hit p2));
    reflexivity.
Qed.

Lemma collide_eq (b : Bullet.t) (self : Game.t) :
  Game.collide b self = (spent b self, pass b self).
Proof.
  unfold spent, pass. destruct (Bullet.alive b) eqn:A.
  - now rewrite collide_live.
  - now rewrite collide_dead.
Qed.

(** ** The loop over the bullets *)

Lemma collide_all_cons (b : Bullet.t) (r : list Bullet.t) (self : Game.t) :
  Game.collide_all (b :: r) self =
  (spent b self :: fst (Game.collide_all r (pass b self)),
   snd (Game.collide_all r (pass b self))).
Proof.
  cbn [Game.collide_all]. rewrite collide_eq.
  now destruct (Game.collide_all r (pass b self)).
Qed.

Lemma collide_all_app (l1 l2 : list Bullet.t) : forall self : Game.t,
  Game.collide_all (l1 ++ l2) self =
  (fst (Game.collide_all l1 self) ++
   fst (Game.collide_all l2 (snd (Game.collide_all l1 self))),
   snd (Game.collide_all l2 (snd (Game.collide_all l1 self)))).
Proof.
  induction l1 as [|b r IH]; intro self.
  - cbn. now destruct (Game.collide_all l2 self).
  - rewrite <- app_comm_cons, !collide_all_cons, IH. reflexivity.
Qed.

Lemma collide_all_length (bs : list Bullet.t) : forall self : Game.t,
  List.length (fst (Game.collide_all bs self)) = List.length bs.
Proof.
  induction bs as [|b r IH]; intro self; [reflexivity|].
  rewrite collide_all_cons. cbn. now rewrite IH.
Qed.

(** A property of the session that every pass keeps holds after the loop. *)
Lemma collide_all_keeps (P : Game.t -> Prop) :
  (forall b self, P self -> P (pass b self)) ->
  forall bs self, P self -> P (snd (Game.collide_all bs self)).
Proof.
  intros Hp bs. induction bs as [|b r IH]; intros self H; [exact H|].
  rewrite collide_all_cons. cbn [snd]. apply IH, Hp, H.
Qed.

Lemma check_collisions_eq (self : Game.t) :
  Game.check_collisions self =
  Game.compact (fst (Game.collide_all (Game.bullets self) self))
               (snd (Game.collide_all (Game.bullets self) self)).
Proof.
  unfold Game.check_collisions.
  now destruct (Game.collide_all (Game.bullets self) self).
Qed.

(** ** Health *)

Lemma hit_health (p : Tank.t) : Tank.health (Tank.hit p) = Tank.health p - 1.
Proof. reflexivity. Qed.

Lemma hit_alive (p : Tank.t) :
  Tank.alive (Tank.hit p) =
  if Tank.health p - 1 <=? 0 then false else Tank.alive p.
Proof. reflexivity. Qed.

Lemma strikes_alive (b : Bullet.t) (p : Tank.t) :
  Game.strikes b p = true -> Tank.alive p = true.
Proof.
  unfold Game.strikes. rewrite !andb_true_iff. tauto.
Qed.

Lemma struck_ok (b : Bullet.t) (p : Tank.t) : tank_ok p -> tank_ok (struck b p).
Proof.
  intros [Hh Ha]. unfold struck.
  destruct (Game.strikes b p) eqn:S; [|now split].
  apply strikes_alive in S. rewrite S in Ha. symmetry in Ha.
  apply Z.ltb_lt in Ha.
  unfold tank_ok. rewrite hit_health, hit_alive, S.
  split; [lia|].
  destruct (Tank.health p - 1 <=? 0) eqn:E; symmetry.
  - apply Z.leb_le in E. apply Z.ltb_ge. lia.
  - apply Z.leb_gt in E. apply Z.ltb_lt. lia.
Qed.

Lemma struck_health (b : Bullet.t) (p : Tank.t) :
  Tank.health p - 1 <= Tank.health (struck b p) <= Tank.health p.
Proof.
  unfold struck. destruct (Game.strikes b p); [rewrite hit_health|]; lia.
Qed.

Lemma struck_dead (b : Bullet.t) (p : Tank.t) :
  Tank.alive p = false -> struck b p = p.
Proof.
  intro H. unfold struck.
  destruct (Game.strikes b p) eqn:S; [|reflexivity].
  apply strikes_alive in S. congruence.
Qed.

Lemma pass_players (b : Bullet.t) (self : Game.t) :
  (Game.player1 (pass b self) = Game.player1 self \/
   Game.player1 (pass b self) = struck b (Game.player1 self)) /\
  (Game.player2 (pass b self) = Game.player2 self \/
   Game.player2 (pass b self) = struck b (Game.player2 self)).
Proof.
  unfold pass. destruct (Bullet.alive b); cbn; tauto.
Qed.

Lemma move_keeps (self : Tank.t) (dx dy mx my : Z) :
  Tank.health (Tank.move self dx dy mx my) = Tank.health self /\
  Tank.alive (Tank.move self dx dy mx my) = Tank.alive self.
Proof.
  unfold Tank.move.
  destruct (_ && _); [|split; reflexivity].
  destruct (dx >? 0); [split; reflexivity|].
  destruct (dx <? 0); [split; reflexivity|].
  destruct (dy >? 0); [split; reflexivity|].
  destruct (dy <? 0); split; reflexivity.
Qed.

Lemma shoot_keeps (self : Tank.t) (w : World) :
  Tank.health (snd (fst (Tank.shoot self w))) = Tank.health self /\
  Tank.alive (snd (fst (Tank.shoot self w))) = Tank.alive self.
Proof.
  rewrite shoot_eq. destruct (Qgtb _ _); split; reflexivity.
Qed.

Lemma same_vitals_refl (g : Game.t) : same_vitals g g.
Proof. repeat split. Qed.

Lemma fire1_vitals (self : Game.t) (w : World) :
  same_vitals self (fst (Game.fire1 self w)).
Proof.
  unfold Game.fire1, bind.
  pose proof (shoot_keeps (Game.player1 self) w) as [Hh Ha].
  destruct (Tank.shoot (Game.player1 self) w) as [[[b|] p] w'];
    cbn in *; repeat split; assumption.
Qed.

Lemma fire2_vitals (self : Game.t) (w : World) :
  same_vitals self (fst (Game.fire2 self w)).
Proof.
  unfold Game.fire2, bind.
  pose proof (shoot_keeps (Game.player2 self) w) as [Hh Ha].
  destruct (Tank.shoot (Game.player2 self) w) as [[[b|] p] w'];
    cbn in *; repeat split; assumption.
Qed.

Lemma move1_vitals (self : Game.t) (dx dy : Z) :
  same_vitals self (Game.move1 self dx dy).
Proof.
  destruct (move_keeps (Game.player1 self) dx dy (Game.max_x self) (Game.max_y self)).
  repeat split; assumption.
Qed.

Lemma move2_vitals (self : Game.t) (dx dy : Z) :
  same_vitals self (Game.move2 self dx dy).
Proof.
  destruct (move_keeps (Game.player2 self) dx dy (Game.max_x self) (Game.max_y self)).
  repeat split; assumption.
Qed.

Lemma quit_vitals (self : Game.t) : same_vitals self (Game.set_game_over self).
Proof. repeat split. Qed.

Create HintDb vitals.
#[local] Hint Resolve same_vitals_refl fire1_vitals fire2_vitals
  move1_vitals move2_vitals quit_vitals : vitals.

Lemma handle_input_vitals (self : Game.t) (key : Z) (w : World) :
  same_vitals self (fst (Game.handle_input self key w)).
Proof.
  unfold Game.handle_input.
  repeat (match goal with
          | |- context [if ?c then _ else _] => destruct c
          end; [unfold ret; cbn [fst]; auto with vitals|]).
  unfold ret; cbn [fst]; auto with vitals.
Qed.

Lemma pass_ok (b : Bullet.t) (self : Game.t) :
  players_ok self -> players_ok (pass b self).
Proof.
  intros [H1 H2]. unfold pass, players_ok.
  destruct (Bullet.alive b); cbn; [|tauto].
  split; now apply struck_ok.
Qed.

Lemma pass_no_healing (g : Game.t) (b : Bullet.t) (self : Game.t) :
  no_healing g self -> no_healing g (pass b self).
Proof.
  intros [H1 H2]. unfold pass, no_healing.
  destruct (Bullet.alive b); cbn; [|tauto].
  pose proof (struck_health b (Game.player1 self)).
  pose proof (struck_health b (Game.player2 self)). lia.
Qed.

Lemma pass_dead1 (p : Tank.t) (b : Bullet.t) (self : Game.t) :
  Tank.alive p = false ->
  Game.player1 self = p -> Game.player1 (pass b self) = p.
Proof.
  intros D E. unfold pass. destruct (Bullet.alive b); cbn; [|exact E].
  rewrite E. now apply struck_dead.
Qed.

Lemma pass_dead2 (p : Tank.t) (b : Bullet.t) (self : Game.t) :
  Tank.alive p = false ->
  Game.player2 self = p -> Game.player2 (pass b self) = p.
Proof.
  intros D E. unfold pass. destruct (Bullet.alive b); cbn; [|exact E].
  rewrite E. now apply struck_dead.
Qed.

Lemma check_collisions_ok (self : Game.t) :
  players_ok self -> players_ok (Game.check_collisions self).
Proof.
  intro H. rewrite check_collisions_eq.
  exact (collide_all_keeps players_ok pass_ok (Game.bullets self) self H).
Qed.

Lemma check_collisions_no_healing (self : Game.t) :
  no_healing self (Game.check_collisions self).
Proof.
  rewrite check_collisions_eq.
  apply (collide_all_keeps (no_healing self) (pass_no_healing self)).
  split; lia.
Qed.

Lemma check_collisions_dead (self : Game.t) :
  (Tank.alive (Game.player1 self) = false ->
   Game.player1 (Game.check_collisions self) = Game.player1 self) /\
  (Tank.alive (Game.player2 self) = false ->
   Game.player2 (Game.check_collisions self) = Game.player2 self).
Proof.
  rewrite check_collisions_eq. split; intro D.
  - apply (collide_all_keeps (fun s => Game.player1 s = Game.player1 self)
             (fun b s => pass_dead1 _ b s D)). reflexivity.
  - apply (collide_all_keeps (fun s => Game.player2 s = Game.player2 self)
             (fun b s => pass_dead2 _ b s D)). reflexivity.
Qed.

(** One round of the loop, step by step. *)
Lemma round_eq (self : Game.t) (w : World) :
  Game.round self w =
  let (key, w1) := getch w in
  let (g1, w2) := Game.handle_input self key w1 in
  let (g2, w3) := Game.update_bullets g1 w2 in
  (Game.check_collisions g2, w3).
Proof.
  unfold Game.round, Game.update, bind, ret.
  destruct (getch w) as [key w1].
  destruct (Game.handle_input self key w1) as [g1 w2].
  now destruct (Game.update_bullets g1 w2).
Qed.

Lemma update_bullets_frame (self : Game.t) (w : World) :
  fst (Game.update_bullets self w) =
  Game.set_bullets self
    (fst (mapM (fun b => Bullet.update b (Game.max_x self) (Game.max_y self))
               (Game.bullets self) w)).
Proof.
  unfold Game.update_bullets, bind, ret.
  now destruct (mapM _ _ w).
Qed.

Lemma round_vitals (self : Game.t) (w : World) :
  exists g, same_vitals self g /\ fst (Game.round self w) = Game.check_collisions g.
Proof.
  rewrite round_eq.
  destruct (getch w) as [key w1].
  pose proof (handle_input_vitals self key w1) as V.
  destruct (Game.handle_input self key w1) as [g1 w2]. cbn [fst] in V.
  pose proof (update_bullets_frame g1 w2) as F.
  destruct (Game.update_bullets g1 w2) as [g2 w3]. cbn [fst] in *.
  exists g2. split; [|reflexivity].
  subst g2. exact V.
Qed.

Lemma vitals_ok (g g' : Game.t) :
  same_vitals g g' -> players_ok g -> players_ok g'.
Proof.
  unfold same_vitals, players_ok, tank_ok.
  intros (-> & -> & -> & ->). tauto.
Qed.

Lemma round_ok (self : Game.t) (w : World) :
  players_ok self -> players_ok (fst (Game.round self w)).
Proof.
  intro H. destruct (round_vitals self w) as (g & V & ->).
  apply check_collisions_ok. exact (vitals_ok _ _ V H).
Qed.

Lemma round_no_healing (self : Game.t) (w : World) :
  no_healing self (fst (Game.round self w)).
Proof.
  destruct (round_vitals self w) as (g & (V1 & _ & V2 & _) & ->).
  destruct (check_collisions_no_healing g) as [H1 H2].
  unfold no_healing. lia.
Qed.

(** ** Sessions *)

Lemma reachable_ok (g : Game.t) : reachable g -> players_ok g.
Proof.
  induction 1 as [mx my rand | g w _ IH _].
  - split; split; cbn; (lia || reflexivity).
  - now apply round_ok.
Qed.

Lemma later_no_healing (g g' : Game.t) : later g g' -> no_healing g g'.
Proof.
  induction 1 as [|g' w _ IH _].
  - split; lia.
  - destruct (round_no_healing g' w). unfold no_healing in *. lia.
Qed.

(** C2: in every state of a session the health of each tank lies in [0,3]
    and the tank is alive exactly when its health is positive; health never
    goes up from one state of the session to a later one; a hit takes one
    point of health and the hit that brings health to 0 makes the tank dead;
    collision resolution leaves a dead tank as it is. *)
Theorem health_invariant (g : Game.t) :
  reachable g ->
  (0 <= Tank.health (Game.player1 g) <= 3 /\
   Tank.alive (Game.player1 g) = (0 <? Tank.health (Game.player1 g))) /\
  (0 <= Tank.health (Game.player2 g) <= 3 /\
   Tank.alive (Game.player2 g) = (0 <? Tank.health (Game.player2 g))) /\
  (forall g', later g g' ->
     Tank.health (Game.player1 g') <= Tank.health (Game.player1 g) /\
     Tank.health (Game.player2 g') <= Tank.health (Game.player2 g)) /\
  (forall p, Tank.health (Tank.hit p) = Tank.health p - 1 /\
             (Tank.health p = 1 -> Tank.alive (Tank.hit p) = false)) /\
  (Tank.alive (Game.player1 g) = false ->
   Game.player1 (Game.check_collisions g) = Game.player1 g) /\
  (Tank.alive (Game.player2 g) = false ->
   Game.player2 (Game.check_collisions g) = Game.player2 g).
Proof.
  intro R. destruct (reachable_ok g R) as [H1 H2].
  split; [exact H1|]. split; [exact H2|]. split.
  - intros g' L. exact (later_no_healing g g' L).
  - split.
    + intro p. split; [reflexivity|]. intro E. rewrite hit_alive, E. reflexivity.
    + exact (check_collisions_dead g).
Qed.

Lemma health_invariant_witness :
  reachable (fst (Game.round (Game.init_game 20 8 (fun _ => (10, 3)))
                             (mkWorld (fun _ => 1%Q) [32]))) /\
  0 <= Tank.health
         (Game.player1
            (fst (Game.round (Game.init_game 20 8 (fun _ => (10, 3)))
                             (mkWorld (fun _ => 1%Q) [32])))) <= 3.
Proof.
  assert (R : reachable (fst (Game.round (Game.init_game 20 8 (fun _ => (10, 3)))
                                         (mkWorld (fun _ => 1%Q) [32])))).
  { apply reach_round; [apply reach_init | reflexivity]. }
  split; [exact R|].
  exact (proj1 (proj1 (health_invariant _ R))).
Defined.

(** ** Compaction *)

Lemma pass_obstacles (b : Bullet.t) (self : Game.t) :
  Game.obstacles (pass b self) =
  if Bullet.alive b then map (wreck b) (Game.obstacles self)
  else Game.obstacles self.
Proof.
  unfold pass. now destruct (Bullet.alive b).
Qed.

Lemma pass_spares (j : nat) (o : Obstacle.t) (c : Bullet.t) (self : Game.t) :
  spares o c ->
  nth_error (Game.obstacles self) j = Some o ->
  nth_error (Game.obstacles (pass c self)) j = Some o.
Proof.
  unfold spares. intros S E. rewrite pass_obstacles.
  destruct (Bullet.alive c); [|exact E].
  rewrite nth_error_map, E. cbn in *. unfold wreck. now rewrite S.
Qed.

Lemma collide_all_spares (j : nat) (o : Obstacle.t) (cs : list Bullet.t) :
  Forall (spares o) cs ->
  forall self,
    nth_error (Game.obstacles self) j = Some o ->
    nth_error (Game.obstacles (snd (Game.collide_all cs self))) j = Some o.
Proof.
  induction 1 as [|c r Hc _ IH]; intros self E; [exact E|].
  rewrite collide_all_cons. cbn [snd]. apply IH. now apply pass_spares.
Qed.

Lemma wrecked_spared (o : Obstacle.t) (c : Bullet.t) : spares (Obstacle.kill o) c.
Proof.
  unfold spares, Game.strikes_obstacle. cbn. apply andb_false_r.
Qed.

Lemma filter_without {A} (f : A -> bool) (l r : list A) (a : A) :
  f a = false -> filter f (l ++ a :: r) = filter f l ++ filter f r.
Proof.
  intro H. rewrite filter_app. cbn. now rewrite H.
Qed.

(** C7: after collision resolution no dead bullet and no destroyed obstacle
    is left in the collections; and when the bullet at index [i], alive, lies
    on the destructible obstacle at index [j], alive, and is the first bullet
    of the tick to do so, the loop marks both dead and the compaction returns
    exactly the survivors among the other bullets and the other obstacles. *)
Theorem compaction (g : Game.t) :
  let g' := Game.check_collisions g in
  Forall (fun b => Bullet.alive b = true) (Game.bullets g') /\
  Forall (fun o => Obstacle.alive o = true) (Game.obstacles g') /\
  (forall i j b o,
     nth_error (Game.bullets g) i = Some b ->
     nth_error (Game.obstacles g) j = Some o ->
     Bullet.alive b = true ->
     Obstacle.destructible o = true ->
     Game.strikes_obstacle b o = true ->
     (forall i' c, (i' < i)%nat -> nth_error (Game.bullets g) i' = Some c ->
                   spares o c) ->
     exists bl br ol orr,
       fst (Game.collide_all (Game.bullets g) g) = bl ++ Bullet.kill b :: br /\
       List.length bl = i /\
       Game.obstacles (snd (Game.collide_all (Game.bullets g) g)) =
         ol ++ Obstacle.kill o :: orr /\
       List.length ol = j /\
       Game.bullets g' = filter Bullet.alive bl ++ filter Bullet.alive br /\
       Game.obstacles g' = filter Obstacle.alive ol ++ filter Obstacle.alive orr).
Proof.
  intro g'. subst g'. rewrite check_collisions_eq.
  cbn [Game.compact Game.bullets Game.obstacles]. split; [|split].
  - apply Forall_forall. intros b Hb. now apply filter_In in Hb.
  - apply Forall_forall. intros o Ho. now apply filter_In in Ho.
  - intros i j b o Eb Eo Ab Do S First.
    destruct (nth_error_split _ _ Eb) as (pre & post & Hsplit & Hlen).
    assert (Q : Forall (spares o) pre).
    { apply Forall_forall. intros c Hc.
      destruct (In_nth_error _ _ Hc) as [n Hn].
      assert (n < i)%nat as Hlt.
      { rewrite <- Hlen. apply nth_error_Some. congruence. }
      apply (First n c Hlt). rewrite Hsplit, nth_error_app1; [exact Hn|].
      now rewrite Hlen. }
    rewrite Hsplit, collide_all_app, collide_all_cons. cbn [fst snd].
    set (s1 := snd (Game.collide_all pre g)).
    assert (E1 : nth_error (Game.obstacles s1) j = Some o)
      by now apply collide_all_spares.
    assert (M : meets b s1 = true).
    { unfold meets. apply orb_true_iff. right. apply existsb_exists.
      exists o. split; [now apply nth_error_In in E1 | exact S]. }
    assert (E2 : nth_error (Game.obstacles (pass b s1)) j = Some (Obstacle.kill o)).
    { rewrite pass_obstacles, Ab, nth_error_map, E1. cbn. unfold wreck.
      now rewrite S, Do. }
    assert (E3 : nth_error
                   (Game.obstacles (snd (Game.collide_all post (pass b s1)))) j
                 = Some (Obstacle.kill o)).
    { apply collide_all_spares; [|exact E2].
      apply Forall_forall. intros c _. apply wrecked_spared. }
    destruct (nth_error_split _ _ E3) as (ol & orr & Ho & Hol).
    exists (fst (Game.collide_all pre g)), (fst (Game.collide_all post (pass b s1))),
           ol, orr.
    unfold spent. rewrite Ab, M. cbn [andb].
    rewrite Ho, collide_all_length.
    rewrite !filter_without by reflexivity.
    repeat split; assumption.
Qed.

Lemma compaction_witness :
  exists bl br ol orr,
    List.length bl = 0%nat /\ List.length ol = 0%nat /\
    Game.bullets (Game.check_collisions ambush) =
      filter Bullet.alive bl ++ filter Bullet.alive br /\
    Game.obstacles (Game.check_collisions ambush) =
      filter Obstacle.alive ol ++ filter Obstacle.alive orr.
Proof.
  destruct (compaction ambush) as (_ & _ & H).
  destruct (H 0%nat 0%nat (Bullet.mk 10 4 "•" true LEFT (1 # 10) (9 # 5))
              (Obstacle.init 10 4)) as (bl & br & ol & orr & _ & Hb & _ & Ho & Eb & Eo).
  - vm_compute. reflexivity.
  - vm_compute. reflexivity.
  - reflexivity.
  - reflexivity.
  - reflexivity.
  - intros i' c Hlt. inversion Hlt.
  - exists bl, br, ol, orr. repeat split; assumption.
Defined.

(** ** A tank brought down *)

Lemma hit_alive_inv (p : Tank.t) :
  Tank.alive (Tank.hit p) = true -> Tank.alive p = true.
Proof.
  rewrite hit_alive. now destruct (Tank.health p - 1 <=? 0).
Qed.

Lemma struck_alive_inv (c : Bullet.t) (p : Tank.t) :
  Tank.alive (struck c p) = true ->
  Tank.alive p = true /\ fells c p = false.
Proof.
  unfold struck, fells. destruct (Game.strikes c p).
  - intro H. split; [now apply hit_alive_inv | now rewrite H].
  - intro H. now split.
Qed.

Lemma fells_dead (c : Bullet.t) (p : Tank.t) :
  Tank.alive p = false -> fells c p = false.
Proof.
  intro D. unfold fells. destruct (Game.strikes c p) eqn:S; [|reflexivity].
  apply strikes_alive in S. congruence.
Qed.

Lemma fells_last (c : Bullet.t) (p : Tank.t) :
  Game.strikes c p = true -> Tank.health p = 1 ->
  fells c p = true /\ Tank.health (struck c p) = 0 /\
  Tank.alive (struck c p) = false.
Proof.
  intros S H. unfold fells, struck. rewrite S, hit_alive, hit_health, H.
  repeat split.
Qed.

Lemma felled1_pass (c : Bullet.t) (s : Game.t) :
  felled Game.player1 Game.player2 "Player 2" s ->
  felled Game.player1 Game.player2 "Player 2" (pass c s).
Proof.
  intros (Hh & Ha & Hg & Hw). unfold pass.
  destruct (Bullet.alive c); [|repeat split; assumption].
  unfold felled, after. cbn [Game.player1 Game.player2 Game.game_over Game.winner].
  rewrite (struck_dead c _ Ha), (fells_dead c _ Ha), Hg, orb_true_r.
  repeat split; try assumption.
  intro A. apply struck_alive_inv in A as [A ->]. now apply Hw.
Qed.

Lemma felled2_pass (c : Bullet.t) (s : Game.t) :
  felled Game.player2 Game.player1 "Player 1" s ->
  felled Game.player2 Game.player1 "Player 1" (pass c s).
Proof.
  intros (Hh & Ha & Hg & Hw). unfold pass.
  destruct (Bullet.alive c); [|repeat split; assumption].
  unfold felled, after. cbn [Game.player1 Game.player2 Game.game_over Game.winner].
  rewrite (struck_dead c _ Ha), (fells_dead c _ Ha), Hg, orb_true_r.
  repeat split; try assumption.
  intro A. apply struck_alive_inv in A as [A ->]. now apply Hw.
Qed.

Lemma fell1_pass (c : Bullet.t) (s : Game.t) :
  Bullet.alive c = true ->
  Game.strikes c (Game.player1 s) = true ->
  Tank.health (Game.player1 s) = 1 ->
  felled Game.player1 Game.player2 "Player 2" (pass c s).
Proof.
  intros A S H. unfold pass. rewrite A.
  destruct (fells_last c _ S H) as (F & Hh & Ha).
  unfold felled, after. cbn [Game.player1 Game.player2 Game.game_over Game.winner].
  rewrite F. repeat split; try assumption.
  intro A2. apply struck_alive_inv in A2 as [_ ->]. reflexivity.
Qed.

Lemma fell2_pass (c : Bullet.t) (s : Game.t) :
  Bullet.alive c = true ->
  Game.strikes c (Game.player2 s) = true ->
  Tank.health (Game.player2 s) = 1 ->
  felled Game.player2 Game.player1 "Player 1" (pass c s).
Proof.
  intros A S H. unfold pass. rewrite A.
  destruct (fells_last c _ S H) as (F & Hh & Ha).
  unfold felled, after. cbn [Game.player1 Game.player2 Game.game_over Game.winner].
  rewrite F, orb_true_r. repeat split; assumption.
Qed.

Lemma missed1_pass (c : Bullet.t) (s : Game.t) :
  Bullet.alive c && Game.strikes c (Game.player1 s) = false ->
  Game.player1 (pass c s) = Game.player1 s.
Proof.
  intro N. unfold pass. destruct (Bullet.alive c); [|reflexivity].
  cbn in *. unfold struck. now rewrite N.
Qed.

Lemma missed2_pass (c : Bullet.t) (s : Game.t) :
  Bullet.alive c && Game.strikes c (Game.player2 s) = false ->
  Game.player2 (pass c s) = Game.player2 s.
Proof.
  intro N. unfold pass. destruct (Bullet.alive c); [|reflexivity].
  cbn in *. unfold struck. now rewrite N.
Qed.

Lemma collide_all_fells1 (b : Bullet.t) (cs : list Bullet.t) :
  In b cs -> Bullet.alive b = true ->
  forall s,
    Game.strikes b (Game.player1 s) = true ->
    Tank.health (Game.player1 s) = 1 ->
    felled Game.player1 Game.player2 "Player 2" (snd (Game.collide_all cs s)).
Proof.
  intros I A. induction cs as [|c r IH]; [destruct I|].
  intros s S H. rewrite collide_all_cons. cbn [snd].
  destruct (Bullet.alive c && Game.strikes c (Game.player1 s)) eqn:E.
  - apply andb_true_iff in E as [Ac Sc].
    apply (collide_all_keeps _ felled1_pass). now apply fell1_pass.
  - destruct I as [-> | I]; [rewrite A, S in E; discriminate|].
    apply (IH I); rewrite (missed1_pass c s E); assumption.
Qed.

Lemma collide_all_fells2 (b : Bullet.t) (cs : list Bullet.t) :
  In b cs -> Bullet.alive b = true ->
  forall s,
    Game.strikes b (Game.player2 s) = true ->
    Tank.health (Game.player2 s) = 1 ->
    felled Game.player2 Game.player1 "Player 1" (snd (Game.collide_all cs s)).
Proof.
  intros I A. induction cs as [|c r IH]; [destruct I|].
  intros s S H. rewrite collide_all_cons. cbn [snd].
  destruct (Bullet.alive c && Game.strikes c (Game.player2 s)) eqn:E.
  - apply andb_true_iff in E as [Ac Sc].
    apply (collide_all_keeps _ felled2_pass). now apply fell2_pass.
  - destruct I as [-> | I]; [rewrite A, S in E; discriminate|].
    apply (IH I); rewrite (missed2_pass c s E); assumption.
Qed.

(** ** The session that collision resolution receives *)

Lemma round_before (self : Game.t) (w : World) :
  fst (Game.round self w) = Game.check_collisions (fst (before_collisions self w)).
Proof.
  rewrite round_eq. unfold before_collisions, bind.
  destruct (getch w) as [key w1].
  destruct (Game.handle_input self key w1) as [g1 w2].
  now destruct (Game.update_bullets g1 w2).
Qed.

Lemma run_reachable (n : nat) : forall g w,
  reachable g -> reachable (fst (Game.run n g w)).
Proof.
  induction n as [|n IH]; intros g w R; [exact R|].
  cbn [Game.run]. destruct (Game.game_over g) eqn:E; [exact R|].
  unfold bind. pose proof (reach_round g w R E) as R1.
  destruct (Game.round g w) as [g1 w1]. now apply IH.
Qed.

(** C5, counterexample: in the last round of the duel the first bullet
    brings down player 2 and the second one player 1: the winner declared for
    the fall of player 2 is overwritten, and the session ends with player 2,
    itself down, as winner. *)
Lemma duel_winner_overwritten :
  resolving duel /\
  (exists b, In b (Game.bullets duel) /\ Bullet.alive b = true /\
             Game.strikes b (Game.player2 duel) = true) /\
  Tank.health (Game.player2 duel) = 1 /\
  Tank.alive (Game.player2 (Game.check_collisions duel)) = false /\
  Game.winner (Game.check_collisions duel) = Some "Player 2"%string /\
  Game.winner (Game.check_collisions duel) <> Some "Player 1"%string.
Proof.
  split.
  - exists (fst (Game.run 16 duel_init duel_world)),
           (snd (Game.run 16 duel_init duel_world)).
    split; [apply run_reachable, reach_init|].
    split; [vm_compute; reflexivity|].
    unfold duel. now destruct (Game.run 16 duel_init duel_world).
  - split.
    + exists (Bullet.mk 11 4 "•" true RIGHT (1 # 10) (16 # 5)).
      split; [vm_compute; left; reflexivity|]. split; reflexivity.
    + split; [vm_compute; reflexivity|].
      split; [vm_compute; reflexivity|].
      split; [vm_compute; reflexivity|].
      vm_compute. discriminate.
Qed.

(** C5, amended: the test of a bullet against an alive tank on the same cell
    marks the bullet dead and hits the tank, and when that hit makes the tank
    dead it sets the other tank as winner and ends the game; hence when a
    live bullet of the tick lies on an alive tank of health 1, collision
    resolution leaves that tank with health 0 and dead and the game over, and
    the winner is the other tank provided the other tank is still alive when
    the resolution ends. *)
Theorem tank_hit (g : Game.t) (b : Bullet.t) :
  (Game.strikes b (Game.player1 g) = true ->
     fst (Game.collide_player1 b g) = Bullet.kill b /\
     Game.player1 (snd (Game.collide_player1 b g)) = Tank.hit (Game.player1 g) /\
     Game.player2 (snd (Game.collide_player1 b g)) = Game.player2 g /\
     (Tank.alive (Tank.hit (Game.player1 g)) = false ->
        Game.winner (snd (Game.collide_player1 b g)) = Some "Player 2"%string /\
        Game.game_over (snd (Game.collide_player1 b g)) = true)) /\
  (Game.strikes b (Game.player2 g) = true ->
     fst (Game.collide_player2 b g) = Bullet.kill b /\
     Game.player2 (snd (Game.collide_player2 b g)) = Tank.hit (Game.player2 g) /\
     Game.player1 (snd (Game.collide_player2 b g)) = Game.player1 g /\
     (Tank.alive (Tank.hit (Game.player2 g)) = false ->
        Game.winner (snd (Game.collide_player2 b g)) = Some "Player 1"%string /\
        Game.game_over (snd (Game.collide_player2 b g)) = true)) /\
  (In b (Game.bullets g) -> Bullet.alive b = true ->
   Game.strikes b (Game.player1 g) = true ->
   Tank.health (Game.player1 g) = 1 ->
     Tank.health (Game.player1 (Game.check_collisions g)) = 0 /\
     Tank.alive (Game.player1 (Game.check_collisions g)) = false /\
     Game.game_over (Game.check_collisions g) = true /\
     (Tank.alive (Game.player2 (Game.check_collisions g)) = true ->
        Game.winner (Game.check_collisions g) = Some "Player 2"%string)) /\
  (In b (Game.bullets g) -> Bullet.alive b = true ->
   Game.strikes b (Game.player2 g) = true ->
   Tank.health (Game.player2 g) = 1 ->
     Tank.health (Game.player2 (Game.check_collisions g)) = 0 /\
     Tank.alive (Game.player2 (Game.check_collisions g)) = false /\
     Game.game_over (Game.check_collisions g) = true /\
     (Tank.alive (Game.player1 (Game.check_collisions g)) = true ->
        Game.winner (Game.check_collisions g) = Some "Player 1"%string)).
Proof.
  split; [|split; [|split]].
  - intro S. rewrite collide_player1_eq, S. cbn [fst snd Game.player1
      Game.player2 Game.winner Game.game_over].
    split; [reflexivity|]. split; [reflexivity|]. split; [reflexivity|].
    intro D. rewrite D. split; reflexivity.
  - intro S. rewrite collide_player2_eq, S. cbn [fst snd Game.player1
      Game.player2 Game.winner Game.game_over].
    split; [reflexivity|]. split; [reflexivity|]. split; [reflexivity|].
    intro D. rewrite D. split; reflexivity.
  - intros I A S H. rewrite check_collisions_eq.
    exact (collide_all_fells1 b (Game.bullets g) I A g S H).
  - intros I A S H. rewrite check_collisions_eq.
    exact (collide_all_fells2 b (Game.bullets g) I A g S H).
Qed.

Lemma tank_hit_witness :
  Tank.health (Game.player2 (Game.check_collisions duel)) = 0 /\
  Game.game_over (Game.check_collisions duel) = true.
Proof.
  destruct (tank_hit duel (Bullet.mk 11 4 "•" true RIGHT (1 # 10) (16 # 5)))
    as (_ & _ & _ & H).
  assert (I : In (Bullet.mk 11 4 "•" true RIGHT (1 # 10) (16 # 5))
                 (Game.bullets duel)) by (vm_compute; left; reflexivity).
  assert (E : Tank.health (Game.player2 duel) = 1) by (vm_compute; reflexivity).
  destruct (H I eq_refl eq_refl E) as (Hh & _ & Hg & _).
  split; assumption.
Defined.

(** C1, counterexample: the only bullet of that tick takes a point of health
    from player 1 and destroys the obstacle under it. *)
Lemma ambush_two_targets :
  resolving ambush /\
  (exists b, Game.bullets ambush = [b] /\ Bullet.alive b = true) /\
  Tank.health (Game.player1 ambush) = 3 /\
  Tank.health (Game.player1 (Game.check_collisions ambush)) = 2 /\
  List.length (Game.obstacles ambush) = 20%nat /\
  List.length (Game.obstacles (Game.check_collisions ambush)) = 19%nat.
Proof.
  split.
  - exists (fst (Game.run 8 ambush_init ambush_world)),
           (snd (Game.run 8 ambush_init ambush_world)).
    split; [apply run_reachable, reach_init|].
    split; [vm_compute; reflexivity|].
    unfold ambush. now destruct (Game.run 8 ambush_init ambush_world).
  - split.
    + eexists. split; vm_compute; reflexivity.
    + repeat split; vm_compute; reflexivity.
Qed.

(** C1, amended: in the pass of one bullet through collision resolution a
    bullet that is already dead is skipped and changes nothing; a live bullet
    is tested against tank 1, tank 2 and every obstacle, each test being made
    whether or not an earlier one matched: every alive tank on its cell takes
    one hit, every alive obstacle on its cell is destroyed when destructible,
    and the bullet is marked dead exactly when some test matched.  So a
    bullet takes at most one point of health from each tank in a tick, but it
    can hit both tanks and obstacles in the same tick. *)
Theorem collide_every_target (b : Bullet.t) (self : Game.t) :
  (Bullet.alive b = false -> Game.collide b self = (b, self)) /\
  (Bullet.alive b = true ->
     let b' := fst (Game.collide b self) in
     let self' := snd (Game.collide b self) in
     Game.player1 self' =
       (if Game.strikes b (Game.player1 self)
        then Tank.hit (Game.player1 self) else Game.player1 self) /\
     Game.player2 self' =
       (if Game.strikes b (Game.player2 self)
        then Tank.hit (Game.player2 self) else Game.player2 self) /\
     Game.obstacles self' =
       map (fun o => if Game.strikes_obstacle b o
                     then (if Obstacle.destructible o then Obstacle.kill o else o)
                     else o)
           (Game.obstacles self) /\
     Tank.health (Game.player1 self) - 1 <= Tank.health (Game.player1 self') /\
     Tank.health (Game.player2 self) - 1 <= Tank.health (Game.player2 self') /\
     (Bullet.alive b' = false <->
        Game.strikes b (Game.player1 self) = true \/
        Game.strikes b (Game.player2 self) = true \/
        exists o, In o (Game.obstacles self) /\ Game.strikes_obstacle b o = true)).
Proof.
  split; [apply collide_dead|].
  intros A b' self'. subst b' self'. rewrite (collide_live b self A).
  cbn [fst snd after Game.player1 Game.player2 Game.obstacles].
  split; [reflexivity|]. split; [reflexivity|]. split; [reflexivity|].
  split; [apply struck_health|]. split; [apply struck_health|].
  unfold meets. rewrite <- existsb_exists, <- !orb_true_iff, orb_assoc.
  destruct (_ || _ || _); cbn; [tauto|].
  rewrite A. split; discriminate.
Qed.

Lemma collide_every_target_witness :
  Game.collide (Bullet.mk 10 4 "•" false LEFT (1 # 10) 1) ambush =
  (Bullet.mk 10 4 "•" false LEFT (1 # 10) 1, ambush).
Proof.
  apply (proj1 (collide_every_target _ ambush)). reflexivity.
Defined.

(** ** Firing *)

(** C8, counterexample: the shot at time 4 and three advance steps 0.1 s
    apart: the first and the third step come exactly 0.1 s after the last
    move and do not move the bullet, which ends at (5,8). *)
Lemma steps_of_a_tenth :
  option_map (fun b => (Bullet.x b, Bullet.y b))
    (fst (fire_then_fly tank_A 40 20
            (mkWorld (readings [4; 4; 41 # 10; 42 # 10; 43 # 10]%Q) []))) =
  Some (5, 8) /\
  option_map (fun b => (Bullet.x b, Bullet.y b))
    (fst (fire_then_fly tank_A 40 20
            (mkWorld (readings [4; 4; 41 # 10; 42 # 10; 43 # 10]%Q) []))) <>
  Some (5, 6).
Proof.
  split; [vm_compute; reflexivity | vm_compute; discriminate].
Qed.

Lemma expire_inside (mx my : Z) (b : Bullet.t) :
  inside mx my (Bullet.x b) (Bullet.y b) -> expire mx my b = b.
Proof.
  intros [Hx Hy]. unfold expire.
  destruct (_ || _) eqn:E; [|reflexivity].
  apply outside_test in E. unfold outside in E. lia.
Qed.

Lemma update_flies (b : Bullet.t) (mx my : Z) (w : World) :
  Bullet.speed b = (1 # 10)%Q ->
  (1 # 10 < clock w 0%nat - Bullet.last_move_time b)%Q ->
  inside mx my (Bullet.x b + fst (value (Bullet.direction b)))
               (Bullet.y b + snd (value (Bullet.direction b))) ->
  Bullet.update b mx my w = (flown b (clock w 0%nat), tick w).
Proof.
  intros Hs Ht Hi. rewrite update_eq, Hs.
  apply Qgtb_true in Ht. rewrite Ht. now rewrite expire_inside.
Qed.

Lemma fire1_eq (g : Game.t) (w : World) :
  Game.fire1 g w =
  if Qgtb (clock w 0%nat - Tank.last_shot_time (Game.player1 g))
          (Tank.shot_cooldown (Game.player1 g))
  then (Game.mk (Game.max_x g) (Game.max_y g)
                (Tank.stamp (Game.player1 g) (clock w 0%nat)) (Game.player2 g)
                (Game.bullets g ++ [muzzle (Game.player1 g) (clock w 1%nat)])
                (Game.obstacles g) (Game.game_over g) (Game.winner g),
        tick (tick w))
  else (g, tick w).
Proof.
  unfold Game.fire1, bind. rewrite shoot_eq.
  destruct (Qgtb _ _); [reflexivity|]. now destruct g.
Qed.

Lemma fire2_eq (g : Game.t) (w : World) :
  Game.fire2 g w =
  if Qgtb (clock w 0%nat - Tank.last_shot_time (Game.player2 g))
          (Tank.shot_cooldown (Game.player2 g))
  then (Game.mk (Game.max_x g) (Game.max_y g)
                (Game.player1 g) (Tank.stamp (Game.player2 g) (clock w 0%nat))
                (Game.bullets g ++ [muzzle (Game.player2 g) (clock w 1%nat)])
                (Game.obstacles g) (Game.game_over g) (Game.winner g),
        tick (tick w))
  else (g, tick w).
Proof.
  unfold Game.fire2, bind. rewrite shoot_eq.
  destruct (Qgtb _ _); [reflexivity|]. now destruct g.
Qed.

(** C8, amended: when [can_shoot] answers true, [shoot] returns one bullet,
    alive, one cell ahead of the tank in the heading of the tank and with
    that heading, and the session appends exactly that bullet; when
    [can_shoot] answers false, [shoot] returns nothing and the session is
    unchanged.  A tank at (5,10) heading up spawns the bullet at (5,9), and
    after three advance steps, each made more than 0.1 s after the move
    before it, a bullet with nothing in its way is at (5,6). *)
Theorem fire_spawns_one_ahead (self : Tank.t) (w : World) :
  (fst (fst (Tank.can_shoot self w)) = true ->
     exists b,
       fst (fst (Tank.shoot self w)) = Some b /\
       Bullet.x b = Tank.x self + fst (value (Tank.direction self)) /\
       Bullet.y b = Tank.y self + snd (value (Tank.direction self)) /\
       Bullet.direction b = Tank.direction self /\
       Bullet.alive b = true /\
       (forall g, Game.player1 g = self ->
                  Game.bullets (fst (Game.fire1 g w)) = Game.bullets g ++ [b]) /\
       (forall g, Game.player2 g = self ->
                  Game.bullets (fst (Game.fire2 g w)) = Game.bullets g ++ [b])) /\
  (fst (fst (Tank.can_shoot self w)) = false ->
     fst (Tank.shoot self w) = (None, self) /\
     (forall g, Game.player1 g = self -> fst (Game.fire1 g w) = g) /\
     (forall g, Game.player2 g = self -> fst (Game.fire2 g w) = g)) /\
  (forall mx my,
     Tank.x self = 5 -> Tank.y self = 10 -> Tank.direction self = UP ->
     fst (fst (Tank.can_shoot self w)) = true ->
     5 < mx - 1 -> 8 < my - 1 ->
     (1 # 10 < clock w 2%nat - clock w 1%nat)%Q ->
     (1 # 10 < clock w 3%nat - clock w 2%nat)%Q ->
     (1 # 10 < clock w 4%nat - clock w 3%nat)%Q ->
     exists b0 b3,
       fst (fst (Tank.shoot self w)) = Some b0 /\
       (Bullet.x b0, Bullet.y b0) = (5, 9) /\
       fst (fire_then_fly self mx my w) = Some b3 /\
       (Bullet.x b3, Bullet.y b3) = (5, 6) /\
       Bullet.alive b3 = true /\
       Bullet.direction b3 = UP).
Proof.
  rewrite can_shoot_eq. cbn [fst].
  split; [|split].
  - intro C. exists (muzzle self (clock w 1%nat)).
    rewrite shoot_eq.
    destruct (Qgtb _ _) eqn:G; [|discriminate]. cbn [fst].
    repeat split.
    + intros g <-. now rewrite fire1_eq, G.
    + intros g <-. now rewrite fire2_eq, G.
  - intro C. rewrite shoot_eq.
    destruct (Qgtb _ _) eqn:G; [discriminate|]. cbn [fst].
    repeat split.
    + intros g <-. now rewrite fire1_eq, G.
    + intros g <-. now rewrite fire2_eq, G.
  - intros mx my Hx Hy Hd C Bx By T1 T2 T3.
    destruct (Qgtb _ _) eqn:G; [|discriminate].
    exists (muzzle self (clock w 1%nat)).
    unfold fire_then_fly, bind. rewrite shoot_eq, G. cbn [fst].
    set (b0 := muzzle self (clock w 1%nat)).
    assert (E0 : b0 = Bullet.mk 5 9 "•" true UP (1 # 10) (clock w 1%nat)).
    { unfold b0, muzzle. rewrite Hx, Hy, Hd. reflexivity. }
    rewrite E0.
    rewrite update_flies; [| reflexivity | exact T1 | unfold inside; cbn; lia].
    rewrite update_flies; [| reflexivity | exact T2 | unfold inside; cbn; lia].
    rewrite update_flies; [| reflexivity | exact T3 | unfold inside; cbn; lia].
    eexists. repeat split.
Qed.

Lemma fire_spawns_one_ahead_witness :
  exists b0 b3,
    fst (fst (Tank.shoot tank_A
                (mkWorld (readings [1; 1; 6 # 5; 7 # 5; 8 # 5]%Q) []))) = Some b0 /\
    (Bullet.x b0, Bullet.y b0) = (5, 9) /\
    fst (fire_then_fly tank_A 40 20
           (mkWorld (readings [1; 1; 6 # 5; 7 # 5; 8 # 5]%Q) [])) = Some b3 /\
    (Bullet.x b3, Bullet.y b3) = (5, 6) /\
    Bullet.alive b3 = true /\
    Bullet.direction b3 = UP.
Proof.
  apply (proj2 (proj2 (fire_spawns_one_ahead tank_A
           (mkWorld (readings [1; 1; 6 # 5; 7 # 5; 8 # 5]%Q) []))) 40 20);
    (reflexivity || lia).
Defined.

(** ** Bullets born on the border *)

(** C10: a tank strictly inside the border whose next cell along its heading
    is not strictly inside, when it may fire, creates its bullet on a border
    cell and alive; an [update] that comes too early to move the bullet
    leaves it exactly as it is, alive, and collision resolution treats it as
    any live bullet; the first [update] that moves it makes it dead. *)
Theorem border_bullet (self : Tank.t) (w : World) (mx my : Z) :
  inside mx my (Tank.x self) (Tank.y self) ->
  ~ inside mx my (Tank.x self + fst (value (Tank.direction self)))
                 (Tank.y self + snd (value (Tank.direction self))) ->
  fst (fst (Tank.can_shoot self w)) = true ->
  exists b,
    fst (fst (Tank.shoot self w)) = Some b /\
    Bullet.alive b = true /\
    on_border mx my (Bullet.x b) (Bullet.y b) /\
    (forall w', ~ (1 # 10 < clock w' 0%nat - Bullet.last_move_time b)%Q ->
                fst (Bullet.update b mx my w') = b) /\
    (forall g, Game.collide b g = (if meets b g then Bullet.kill b else b, after b g)) /\
    (forall w', (1 # 10 < clock w' 0%nat - Bullet.last_move_time b)%Q ->
                Bullet.alive (fst (Bullet.update b mx my w')) = false).
Proof.
  intros [Ix Iy] N C. rewrite can_shoot_eq in C. cbn [fst] in C.
  exists (muzzle self (clock w 1%nat)). rewrite shoot_eq.
  destruct (Qgtb _ _); [|discriminate]. cbn [fst].
  split; [reflexivity|]. split; [reflexivity|].
  unfold inside in N. split; [|split; [|split]].
  - unfold on_border, muzzle. cbn [Bullet.x Bullet.y].
    destruct (Tank.direction self); cbn in *; lia.
  - intros w' T. rewrite update_eq. apply Qgtb_false in T.
    cbn [muzzle Bullet.speed Bullet.last_move_time] in *. now rewrite T.
  - intro g. now apply collide_live.
  - intros w' T. rewrite update_eq. apply Qgtb_true in T.
    cbn [muzzle Bullet.speed Bullet.last_move_time] in *. rewrite T. cbn [fst].
    unfold expire.
    destruct (_ || _) eqn:E; [reflexivity|].
    exfalso. apply not_true_iff_false in E. apply E, outside_test.
    unfold outside, flown, muzzle. cbn [Bullet.x Bullet.y Bullet.direction].
    destruct (Tank.direction self); cbn in *; lia.
Qed.

Lemma border_bullet_witness :
  exists b,
    fst (fst (Tank.shoot (Tank.init 5 1 "^" 1) (mkWorld (fun _ => 1%Q) []))) = Some b /\
    Bullet.alive b = true /\
    on_border 40 20 (Bullet.x b) (Bullet.y b).
Proof.
  assert (I : inside 40 20 5 1) by (unfold inside; lia).
  assert (N : ~ inside 40 20 (5 + 0) (1 + -1)) by (unfold inside; lia).
  destruct (border_bullet (Tank.init 5 1 "^" 1) (mkWorld (fun _ => 1%Q) []) 40 20
              I N eq_refl) as (b & H1 & H2 & H3 & _).
  exists b. repeat split; assumption.
Defined.

(** ** Input *)

Lemma perform_untouched (a : Action) (g : Game.t) (w : World) :
  untouched a g (fst (perform a g w)).
Proof.
  destruct a as [[|] d | [|] |]; cbn [perform untouched].
  - repeat split.
  - repeat split.
  - rewrite fire1_eq. destruct (Qgtb _ _); cbn; repeat split; eauto.
  - rewrite fire2_eq. destruct (Qgtb _ _); cbn; repeat split; eauto.
  - repeat split.
Qed.

Lemma handle_input_perform (g : Game.t) (key : Z) :
  Game.handle_input g key =
  match action_of_key key with
  | Some a => perform a g
  | None => ret g
  end.
Proof.
  unfold Game.handle_input, action_of_key.
  destruct (key =? -1) eqn:E.
  - apply Z.eqb_eq in E. subst key. reflexivity.
  - repeat (match goal with
            | |- context [if ?c then _ else _] => destruct c
            end; [reflexivity|]).
    reflexivity.
Qed.

(** None of the calls behind [handle_input] and [update] reads a key. *)
Lemma mapM_update_pending (mx my : Z) (bs : list Bullet.t) : forall w : World,
  pending (snd (mapM (fun b => Bullet.update b mx my) bs w)) = pending w.
Proof.
  induction bs as [|b r IH]; intro w; [reflexivity|].
  cbn [mapM]. unfold bind. rewrite update_eq.
  specialize (IH (tick w)). destruct (mapM _ r (tick w)). exact IH.
Qed.

Lemma perform_pending (a : Action) (g : Game.t) (w : World) :
  pending (snd (perform a g w)) = pending w.
Proof.
  destruct a as [[|] d | [|] |]; cbn [perform]; try reflexivity.
  - rewrite fire1_eq. now destruct (Qgtb _ _).
  - rewrite fire2_eq. now destruct (Qgtb _ _).
Qed.

Lemma handle_input_pending (g : Game.t) (key : Z) (w : World) :
  pending (snd (Game.handle_input g key w)) = pending w.
Proof.
  rewrite handle_input_perform.
  destruct (action_of_key key); [apply perform_pending | reflexivity].
Qed.

Lemma round_pending (g : Game.t) (w : World) :
  pending (snd (Game.round g w)) = tl (pending w).
Proof.
  rewrite round_eq.
  assert (G : pending (snd (getch w)) = tl (pending w)).
  { unfold getch. destruct (pending w) eqn:E; [exact E | reflexivity]. }
  destruct (getch w) as [key w1]. cbn [snd] in G.
  pose proof (handle_input_pending g key w1) as H.
  destruct (Game.handle_input g key w1) as [g1 w2]. cbn [snd] in H.
  unfold Game.update_bullets, bind.
  pose proof (mapM_update_pending (Game.max_x g1) (Game.max_y g1)
                (Game.bullets g1) w2) as U.
  destruct (mapM _ (Game.bullets g1) w2) as [bs w3].
  cbn in *. congruence.
Qed.

(** C9: a round of the loop reads the input once, and that read takes at
    most one key off the pending ones and returns -1 at once when there is
    none; the key read is handled in that same round, for either player;
    without a key [handle_input] does nothing; a key stands for at most one
    action, of one player or the quit, and [handle_input] performs that
    action and nothing else, leaving the other player alone. *)
Theorem one_key_one_action (g : Game.t) (key : Z) (w : World) :
  fst (getch w) = hd (-1) (pending w) /\
  (pending w = [] -> getch w = (-1, w)) /\
  pending (snd (Game.round g w)) = tl (pending w) /\
  Game.round g w =
    (let (g1, w1) := Game.handle_input g (hd (-1) (pending w)) (snd (getch w)) in
     Game.update g1 w1) /\
  Game.handle_input g (-1) w = (g, w) /\
  Game.handle_input g key w =
    match action_of_key key with
    | Some a => perform a g w
    | None => (g, w)
    end /\
  (forall a, action_of_key key = Some a ->
             untouched a g (fst (Game.handle_input g key w))).
Proof.
  assert (G : fst (getch w) = hd (-1) (pending w)).
  { unfold getch. now destruct (pending w). }
  split; [exact G|]. split.
  { intro E. unfold getch. now rewrite E. }
  split; [apply round_pending|]. split.
  { unfold Game.round, bind. rewrite <- G. now destruct (getch w). }
  split; [reflexivity|]. split.
  - rewrite handle_input_perform. now destruct (action_of_key key).
  - intros a E. rewrite handle_input_perform, E. apply perform_untouched.
Qed.

(** * Further properties of the session *)

(** ** What a round keeps *)

(** A property of the session that every step of a round keeps is kept by
    the round. *)
Lemma round_keeps (P : Game.t -> Prop) :
  (forall g dx dy, P g -> P (Game.move1 g dx dy)) ->
  (forall g dx dy, P g -> P (Game.move2 g dx dy)) ->
  (forall g w, P g -> P (fst (Game.fire1 g w))) ->
  (forall g w, P g -> P (fst (Game.fire2 g w))) ->
  (forall g, P g -> P (Game.set_game_over g)) ->
  (forall g bs, P g -> P (Game.set_bullets g bs)) ->
  (forall b g, P g -> P (pass b g)) ->
  (forall bs g, P g -> P (Game.compact bs g)) ->
  forall g w, P g -> P (fst (Game.round g w)).
Proof.
  intros M1 M2 F1 F2 Q B Ps C g w H.
  rewrite round_before, check_collisions_eq.
  apply C. apply (collide_all_keeps P Ps).
  unfold before_collisions, bind.
  destruct (getch w) as [key w1].
  assert (H1 : P (fst (Game.handle_input g key w1))).
  { rewrite handle_input_perform.
    destruct (action_of_key key) as [[[|] d | [|] |]|]; cbn [perform];
      unfold ret; cbn [fst]; auto. }
  destruct (Game.handle_input g key w1) as [g1 w2]. cbn [fst] in H1.
  rewrite update_bullets_frame. now apply B.
Qed.

Lemma reachable_keeps (P : Game.t -> Prop) :
  (forall mx my rand, P (Game.init_game mx my rand)) ->
  (forall g w, P g -> P (fst (Game.round g w))) ->
  forall g, reachable g -> P g.
Proof.
  intros I R g. induction 1; auto.
Qed.

Lemma later_keeps (P : Game.t -> Prop) :
  (forall g w, P g -> P (fst (Game.round g w))) ->
  forall g g', later g g' -> P g -> P g'.
Proof.
  intros R g g'. induction 1; auto.
Qed.

Lemma reachable_later (g : Game.t) :
  reachable g <-> exists mx my rand, later (Game.init_game mx my rand) g.
Proof.
  split.
  - induction 1 as [mx my rand | g w _ (mx & my & rand & L) E].
    + exists mx, my, rand. constructor.
    + exists mx, my, rand. now constructor.
  - intros (mx & my & rand & L). induction L as [|g' w _ IH E].
    + constructor.
    + now constructor.
Qed.

(** A property of a tank that moving, recording a shot and being hit keep
    holds of both tanks after a round if it did before, and the playfield
    keeps its size. *)
Lemma round_keeps_both (Q : Z -> Z -> Tank.t -> Prop) (mx my : Z) :
  (forall p dx dy, Q mx my p -> Q mx my (Tank.move p dx dy mx my)) ->
  (forall p t, Q mx my p -> Q mx my (Tank.stamp p t)) ->
  (forall p, Q mx my p -> Q mx my (Tank.hit p)) ->
  forall g w,
    (Game.max_x g = mx /\ Game.max_y g = my /\ both Q g) ->
    (Game.max_x (fst (Game.round g w)) = mx /\
     Game.max_y (fst (Game.round g w)) = my /\
     both Q (fst (Game.round g w))).
Proof.
  intros Hm Hs Hh.
  apply (round_keeps (fun g => Game.max_x g = mx /\ Game.max_y g = my /\ both Q g)).
  - intros g dx dy (Ex & Ey & H1 & H2). unfold both. cbn. rewrite Ex, Ey in *.
    repeat split; auto.
  - intros g dx dy (Ex & Ey & H1 & H2). unfold both. cbn. rewrite Ex, Ey in *.
    repeat split; auto.
  - intros g w (Ex & Ey & H1 & H2). rewrite fire1_eq.
    destruct (Qgtb _ _); unfold both; cbn; rewrite Ex, Ey in *; repeat split; auto.
  - intros g w (Ex & Ey & H1 & H2). rewrite fire2_eq.
    destruct (Qgtb _ _); unfold both; cbn; rewrite Ex, Ey in *; repeat split; auto.
  - intros g (Ex & Ey & H1 & H2). unfold both. cbn. repeat split; auto.
  - intros g bs (Ex & Ey & H1 & H2). unfold both. cbn. repeat split; auto.
  - intros b g (Ex & Ey & H1 & H2). unfold pass, both.
    destruct (Bullet.alive b); cbn; [|repeat split; auto].
    rewrite Ex, Ey in *. unfold struck.
    repeat split; auto.
    + destruct (Game.strikes b (Game.player1 g)); auto.
    + destruct (Game.strikes b (Game.player2 g)); auto.
  - intros bs g (Ex & Ey & H1 & H2). unfold both. cbn. repeat split; auto.
Qed.

(** ** Where the tanks are and what they show *)

Lemma move_inside (mx my : Z) (p : Tank.t) (dx dy : Z) :
  tank_inside mx my p -> tank_inside mx my (Tank.move p dx dy mx my).
Proof.
  unfold tank_inside, Tank.move. intro H.
  destruct ((0 <? Tank.x p + dx) && (Tank.x p + dx <? mx - 1) &&
            (0 <? Tank.y p + dy) && (Tank.y p + dy <? my - 1)) eqn:E; [|exact H].
  apply inside_test in E.
  destruct (dx >? 0); [exact E|].
  destruct (dx <? 0); [exact E|].
  destruct (dy >? 0); [exact E|].
  destruct (dy <? 0); exact E.
Qed.

Lemma move_glyph (mx my : Z) (p : Tank.t) (dx dy : Z) :
  tank_glyph mx my p -> tank_glyph mx my (Tank.move p dx dy mx my).
Proof.
  unfold tank_glyph, Tank.move. intro H.
  destruct (_ && _); [|exact H].
  destruct (dx >? 0); [reflexivity|].
  destruct (dx <? 0); [reflexivity|].
  destruct (dy >? 0); [reflexivity|].
  destruct (dy <? 0); [reflexivity | exact H].
Qed.

Lemma half_inside (my : Z) : 3 <= my -> 0 < my / 2 < my - 1.
Proof.
  intro H. pose proof (Z_div_mod_eq_full my 2).
  pose proof (Z.mod_pos_bound my 2 ltac:(lia)). lia.
Qed.

(** X1: on a playfield of at least 7 columns and 3 rows both tanks start
    strictly inside the border, and in every later state of the session the
    playfield has the same size and both tanks are still strictly inside the
    border. *)
Theorem tanks_stay_inside (mx my : Z) (rand : nat -> Z * Z) (g : Game.t) :
  7 <= mx -> 3 <= my ->
  later (Game.init_game mx my rand) g ->
  Game.max_x g = mx /\ Game.max_y g = my /\
  0 < Tank.x (Game.player1 g) < mx - 1 /\ 0 < Tank.y (Game.player1 g) < my - 1 /\
  0 < Tank.x (Game.player2 g) < mx - 1 /\ 0 < Tank.y (Game.player2 g) < my - 1.
Proof.
  intros Hx Hy L.
  assert (H : Game.max_x g = mx /\ Game.max_y g = my /\ both tank_inside g).
  { apply (later_keeps _ (round_keeps_both tank_inside mx my
             (move_inside mx my) (fun p t H => H) (fun p H => H)) _ _ L).
    pose proof (half_inside my Hy).
    repeat split; cbn; lia. }
  destruct H as (Ex & Ey & [H1x H1y] & [H2x H2y]).
  rewrite Ex, Ey in *. tauto.
Qed.

Lemma tanks_stay_inside_witness :
  0 < Tank.x (Game.player1
                (fst (Game.round (Game.init_game 20 8 (fun _ => (10, 3)))
                                 (mkWorld (fun _ => 1%Q) [ord "a"])))) < 20 - 1.
Proof.
  assert (L : later (Game.init_game 20 8 (fun _ => (10, 3)))
                (fst (Game.round (Game.init_game 20 8 (fun _ => (10, 3)))
                                 (mkWorld (fun _ => 1%Q) [ord "a"])))).
  { apply later_round; [apply later_now | reflexivity]. }
  apply (tanks_stay_inside 20 8 _ _ ltac:(lia) ltac:(lia) L).
Defined.

(** X2: in every state of a session the glyph of each tank is the marker of
    its heading. *)
Theorem glyph_shows_heading (g : Game.t) :
  reachable g ->
  Tank.symbol (Game.player1 g) = glyph (Tank.direction (Game.player1 g)) /\
  Tank.symbol (Game.player2 g) = glyph (Tank.direction (Game.player2 g)).
Proof.
  apply (reachable_keeps (both tank_glyph)).
  - intros mx my rand. split; reflexivity.
  - intros g0 w H.
    apply (round_keeps_both tank_glyph (Game.max_x g0) (Game.max_y g0)
             (move_glyph _ _) (fun p t H => H) (fun p H => H) g0 w).
    repeat split; apply H.
Qed.

Lemma glyph_shows_heading_witness :
  Tank.symbol (Game.player1
                 (fst (Game.round (Game.init_game 20 8 (fun _ => (10, 3)))
                                  (mkWorld (fun _ => 1%Q) [ord "d"])))) = ">"%string.
Proof.
  assert (R : reachable (fst (Game.round (Game.init_game 20 8 (fun _ => (10, 3)))
                                         (mkWorld (fun _ => 1%Q) [ord "d"])))).
  { apply reach_round; [apply reach_init | reflexivity]. }
  exact (proj1 (glyph_shows_heading _ R)).
Defined.

(** ** The start of a session *)

Lemma init_obstacles (mx my : Z) (rand : nat -> Z * Z) (o : Obstacle.t) :
  In o (Game.obstacles (Game.init_game mx my rand)) ->
  exists i, (i < 20)%nat /\ o = Obstacle.init (fst (rand i)) (snd (rand i)).
Proof.
  cbn [Game.init_game Game.obstacles]. intro H.
  apply in_map_iff in H as (i & <- & Hi). apply in_seq in Hi.
  exists i. split; [lia | reflexivity].
Qed.

(** X3: when every pair of random numbers lies in the ranges that
    [init_game] asks of [random.randint], the session starts with 20
    obstacles, all alive and destructible, each strictly inside the border
    and none on the start cell of a tank; both tanks start strictly inside
    the border, on the same row, alive with health 3 and heading up; there
    is no bullet, the game is not over and there is no winner. *)
Theorem init_game_layout (mx my : Z) (rand : nat -> Z * Z) :
  (forall i, (i < 20)%nat ->
             10 <= fst (rand i) <= mx - 10 /\ 3 <= snd (rand i) <= my - 3) ->
  let g := Game.init_game mx my rand in
  List.length (Game.obstacles g) = 20%nat /\
  (forall o, In o (Game.obstacles g) ->
     Obstacle.alive o = true /\ Obstacle.destructible o = true /\
     inside mx my (Obstacle.x o) (Obstacle.y o) /\
     Obstacle.x o <> Tank.x (Game.player1 g) /\
     Obstacle.x o <> Tank.x (Game.player2 g)) /\
  inside mx my (Tank.x (Game.player1 g)) (Tank.y (Game.player1 g)) /\
  inside mx my (Tank.x (Game.player2 g)) (Tank.y (Game.player2 g)) /\
  Tank.y (Game.player1 g) = Tank.y (Game.player2 g) /\
  Tank.x (Game.player1 g) < Tank.x (Game.player2 g) /\
  Tank.health (Game.player1 g) = 3 /\ Tank.health (Game.player2 g) = 3 /\
  Tank.alive (Game.player1 g) = true /\ Tank.alive (Game.player2 g) = true /\
  Tank.direction (Game.player1 g) = UP /\ Tank.direction (Game.player2 g) = UP /\
  Game.bullets g = [] /\ Game.game_over g = false /\ Game.winner g = None.
Proof.
  intros R g.
  destruct (R 0%nat ltac:(lia)) as [Rx Ry].
  pose proof (half_inside my ltac:(lia)) as Hh.
  split.
  { subst g. cbn [Game.init_game Game.obstacles]. now rewrite length_map, length_seq. }
  split.
  { intros o Ho. apply init_obstacles in Ho as (i & Hi & ->).
    destruct (R i Hi) as [Hx Hy].
    subst g. unfold inside. cbn. repeat split; lia. }
  subst g. unfold inside. cbn. repeat split; lia.
Qed.

Lemma init_game_layout_witness :
  List.length (Game.obstacles (Game.init_game 20 8 (fun _ => (10, 3)))) = 20%nat /\
  inside 20 8 (Tank.x (Game.player1 (Game.init_game 20 8 (fun _ => (10, 3)))))
              (Tank.y (Game.player1 (Game.init_game 20 8 (fun _ => (10, 3))))).
Proof.
  assert (R : forall i, (i < 20)%nat ->
                10 <= fst ((fun _ : nat => (10, 3)) i) <= 20 - 10 /\
                3 <= snd ((fun _ : nat => (10, 3)) i) <= 8 - 3)
    by (intros i _; cbn; lia).
  destruct (init_game_layout 20 8 (fun _ => (10, 3)) R) as (H1 & _ & H2 & _).
  split; assumption.
Defined.

(** ** Winner and game over *)

Lemma struck_cases (b : Bullet.t) (p : Tank.t) :
  (fells b p = true /\ Tank.alive (struck b p) = false) \/
  (fells b p = false /\ Tank.alive (struck b p) = Tank.alive p).
Proof.
  unfold fells, struck. destruct (Game.strikes b p) eqn:S; [|now right].
  destruct (Tank.alive (Tank.hit p)) eqn:A; [right | now left].
  apply strikes_alive in S. now rewrite S.
Qed.

Lemma pass_settled (b : Bullet.t) (g : Game.t) : settled g -> settled (pass b g).
Proof.
  intro H. unfold pass. destruct (Bullet.alive b); [|exact H].
  unfold settled, after.
  cbn [Game.player1 Game.player2 Game.winner Game.game_over].
  destruct (struck_cases b (Game.player1 g)) as [[F1 A1] | [F1 A1]];
    destruct (struck_cases b (Game.player2 g)) as [[F2 A2] | [F2 A2]];
    rewrite F1, F2, A1, A2; cbn [orb].
  - right. right. repeat split.
  - right. left. repeat split.
  - right. right. repeat split.
  - exact H.
Qed.

Lemma round_settled (g : Game.t) (w : World) :
  settled g -> settled (fst (Game.round g w)).
Proof.
  apply (round_keeps settled).
  - intros g0 dx dy H. unfold settled in *. cbn.
    destruct (move_keeps (Game.player1 g0) dx dy (Game.max_x g0) (Game.max_y g0))
      as [_ ->]. exact H.
  - intros g0 dx dy H. unfold settled in *. cbn.
    destruct (move_keeps (Game.player2 g0) dx dy (Game.max_x g0) (Game.max_y g0))
      as [_ ->]. exact H.
  - intros g0 w0 H. rewrite fire1_eq. now destruct (Qgtb _ _).
  - intros g0 w0 H. rewrite fire2_eq. now destruct (Qgtb _ _).
  - intros g0 H. unfold settled in *. cbn. tauto.
  - intros g0 bs H. exact H.
  - apply pass_settled.
  - intros bs g0 H. exact H.
Qed.

Lemma reachable_settled (g : Game.t) : reachable g -> settled g.
Proof.
  apply (reachable_keeps settled).
  - intros mx my rand. left. repeat split.
  - intros g0 w. apply round_settled.
Qed.

(** X4: in every state of a session the winner is nobody, "Player 1" or
    "Player 2"; while the game is not over both tanks are alive and nobody
    has won; nobody has won exactly when both tanks are alive; when "Player
    2" is the winner tank 1 is down, when "Player 1" is the winner tank 2 is
    down, and in both cases the game is over. *)
Theorem winner_tracks_kills (g : Game.t) :
  reachable g ->
  (Game.winner g = None \/ Game.winner g = Some "Player 1"%string \/
   Game.winner g = Some "Player 2"%string) /\
  (Game.game_over g = false ->
     Tank.alive (Game.player1 g) = true /\ Tank.alive (Game.player2 g) = true /\
     Game.winner g = None) /\
  (Game.winner g = None <->
     Tank.alive (Game.player1 g) = true /\ Tank.alive (Game.player2 g) = true) /\
  (Game.winner g = Some "Player 2"%string ->
     Tank.alive (Game.player1 g) = false /\ Game.game_over g = true) /\
  (Game.winner g = Some "Player 1"%string ->
     Tank.alive (Game.player2 g) = false /\ Game.game_over g = true).
Proof.
  intro R. apply reachable_settled in R.
  destruct R as [(A1 & A2 & W) | [(A1 & G & W) | (A2 & G & W)]];
    rewrite W; intuition congruence.
Qed.

Lemma winner_tracks_kills_witness :
  Game.winner (fst (Game.run 17 duel_init duel_world)) = Some "Player 2"%string /\
  Tank.alive (Game.player1 (fst (Game.run 17 duel_init duel_world))) = false.
Proof.
  assert (R : reachable (fst (Game.run 17 duel_init duel_world)))
    by apply run_reachable, reach_init.
  assert (W : Game.winner (fst (Game.run 17 duel_init duel_world)) =
              Some "Player 2"%string) by (vm_compute; reflexivity).
  destruct (winner_tracks_kills _ R) as (_ & _ & _ & H & _).
  split; [exact W | exact (proj1 (H W))].
Defined.

(** ** What the collections hold *)

Lemma wreck_cases (b : Bullet.t) (o : Obstacle.t) :
  wreck b o = o \/ wreck b o = Obstacle.kill o.
Proof.
  unfold wreck. destruct (Game.strikes_obstacle b o); [|now left].
  destruct (Obstacle.destructible o); tauto.
Qed.

Lemma wreck_kill (b : Bullet.t) (o : Obstacle.t) :
  wreck b (Obstacle.kill o) = Obstacle.kill o.
Proof.
  unfold wreck, Game.strikes_obstacle. reflexivity.
Qed.

Lemma wreck_all_kill (bs : list Bullet.t) (o : Obstacle.t) :
  wreck_all bs (Obstacle.kill o) = Obstacle.kill o.
Proof.
  unfold wreck_all. induction bs as [|b r IH]; [reflexivity|].
  cbn [fold_left]. rewrite wreck_kill. now destruct (Bullet.alive b).
Qed.

Lemma wreck_all_cases (bs : list Bullet.t) : forall o : Obstacle.t,
  wreck_all bs o = o \/ wreck_all bs o = Obstacle.kill o.
Proof.
  induction bs as [|b r IH]; intro o; [now left|].
  change (wreck_all (b :: r) o)
    with (wreck_all r (if Bullet.alive b then wreck b o else o)).
  destruct (Bullet.alive b); [|apply IH].
  destruct (wreck_cases b o) as [-> | ->]; [apply IH|].
  right. apply wreck_all_kill.
Qed.

Lemma wreck_all_alive (bs : list Bullet.t) (o : Obstacle.t) :
  Obstacle.alive (wreck_all bs o) = true -> wreck_all bs o = o.
Proof.
  destruct (wreck_all_cases bs o) as [-> | ->]; [reflexivity | discriminate].
Qed.

Lemma collide_all_obstacles (bs : list Bullet.t) : forall s : Game.t,
  Game.obstacles (snd (Game.collide_all bs s)) =
  map (wreck_all bs) (Game.obstacles s).
Proof.
  induction bs as [|b r IH]; intro s.
  - cbn. now rewrite map_id.
  - rewrite collide_all_cons. cbn [snd]. rewrite IH, pass_obstacles.
    destruct (Bullet.alive b) eqn:A.
    + rewrite map_map. apply map_ext. intro o.
      unfold wreck_all. cbn [fold_left]. now rewrite A.
    + apply map_ext. intro o. unfold wreck_all. cbn [fold_left]. now rewrite A.
Qed.

Lemma filter_map_kept {A} (f : A -> bool) (F : A -> A) (l : list A) :
  (forall a, f (F a) = true -> F a = a) ->
  filter f (map F l) = filter (fun a => f (F a)) l.
Proof.
  intro H. induction l as [|a r IH]; [reflexivity|].
  cbn. destruct (f (F a)) eqn:E; [|exact IH].
  now rewrite (H a E), IH.
Qed.

Lemma check_collisions_obstacles (g : Game.t) :
  Game.obstacles (Game.check_collisions g) =
  filter (fun o => Obstacle.alive (wreck_all (Game.bullets g) o)) (Game.obstacles g).
Proof.
  rewrite check_collisions_eq. cbn [Game.compact Game.obstacles].
  rewrite collide_all_obstacles.
  apply filter_map_kept. apply wreck_all_alive.
Qed.

Lemma round_obstacles (g : Game.t) (w : World) :
  exists keep, Game.obstacles (fst (Game.round g w)) = filter keep (Game.obstacles g).
Proof.
  rewrite round_before, check_collisions_obstacles.
  unfold before_collisions, bind.
  destruct (getch w) as [key w1].
  assert (H : Game.obstacles (fst (Game.handle_input g key w1)) = Game.obstacles g).
  { rewrite handle_input_perform.
    destruct (action_of_key key) as [[[|] d | [|] |]|]; cbn [perform];
      try reflexivity.
    - rewrite fire1_eq. now destruct (Qgtb _ _).
    - rewrite fire2_eq. now destruct (Qgtb _ _). }
  destruct (Game.handle_input g key w1) as [g1 w2]. cbn [fst] in H.
  rewrite update_bullets_frame. cbn [Game.set_bullets Game.obstacles Game.bullets].
  rewrite H. eexists. reflexivity.
Qed.

Lemma round_all_alive (g : Game.t) (w : World) :
  Forall (fun b => Bullet.alive b = true) (Game.bullets (fst (Game.round g w))) /\
  Forall (fun o => Obstacle.alive o = true) (Game.obstacles (fst (Game.round g w))).
Proof.
  rewrite round_before, check_collisions_eq.
  cbn [Game.compact Game.bullets Game.obstacles].
  split; apply Forall_forall; intros a Ha; now apply filter_In in Ha.
Qed.

Lemma reachable_stock (g : Game.t) :
  reachable g ->
  Forall (fun b => Bullet.alive b = true) (Game.bullets g) /\
  Forall (fun o => Obstacle.alive o = true /\ Obstacle.destructible o = true)
         (Game.obstacles g) /\
  (List.length (Game.obstacles g) <= 20)%nat.
Proof.
  induction 1 as [mx my rand | g w _ (_ & IHo & IHl) _].
  - split; [constructor|]. split.
    + apply Forall_forall. intros o Ho.
      apply init_obstacles in Ho as (i & _ & ->). now split.
    + cbn [Game.init_game Game.obstacles]. now rewrite length_map, length_seq.
  - destruct (round_all_alive g w) as [Hb Ho].
    destruct (round_obstacles g w) as [keep E].
    split; [exact Hb|]. split.
    + rewrite Forall_forall in *. intros o Hin. split; [now apply Ho|].
      rewrite E in Hin. apply filter_In in Hin as [Hin _].
      now apply IHo.
    + rewrite E. pose proof (filter_length_le keep (Game.obstacles g)). lia.
Qed.

(** X5: in every state of a session all bullets in the collection are alive,
    all obstacles in the collection are alive and destructible, and there
    are at most 20 obstacles. *)
Theorem collections_hold_live_items (g : Game.t) :
  reachable g ->
  Forall (fun b => Bullet.alive b = true) (Game.bullets g) /\
  Forall (fun o => Obstacle.alive o = true /\ Obstacle.destructible o = true)
         (Game.obstacles g) /\
  (List.length (Game.obstacles g) <= 20)%nat.
Proof.
  exact (reachable_stock g).
Qed.

Lemma collections_hold_live_items_witness :
  (List.length (Game.obstacles (fst (Game.run 9 ambush_init ambush_world))) <= 20)%nat.
Proof.
  assert (R : reachable (fst (Game.run 9 ambush_init ambush_world)))
    by apply run_reachable, reach_init.
  exact (proj2 (proj2 (collections_hold_live_items _ R))).
Defined.

(** ** Collision resolution only removes *)

Lemma spent_cases (b : Bullet.t) (s : Game.t) :
  spent b s = b \/ (spent b s = Bullet.kill b /\ Bullet.alive (spent b s) = false).
Proof.
  unfold spent. destruct (Bullet.alive b && meets b s); [right | left]; now split.
Qed.

Lemma survivors_from (bs : list Bullet.t) : forall (s : Game.t) (b : Bullet.t),
  In b (fst (Game.collide_all bs s)) -> Bullet.alive b = true -> In b bs.
Proof.
  induction bs as [|c r IH]; intros s b H A; [destruct H|].
  rewrite collide_all_cons in H. cbn [fst] in H. destruct H as [<- | H].
  - destruct (spent_cases c s) as [-> | [_ D]]; [now left | congruence].
  - right. exact (IH _ _ H A).
Qed.

Lemma struck_stand (b : Bullet.t) (p : Tank.t) : same_stand p (struck b p).
Proof.
  unfold struck, same_stand. destruct (Game.strikes b p); repeat split.
Qed.

Lemma pass_stand (g : Game.t) (b : Bullet.t) (s : Game.t) :
  (Game.max_x s = Game.max_x g /\ Game.max_y s = Game.max_y g /\
   same_stand (Game.player1 g) (Game.player1 s) /\
   same_stand (Game.player2 g) (Game.player2 s)) ->
  (Game.max_x (pass b s) = Game.max_x g /\ Game.max_y (pass b s) = Game.max_y g /\
   same_stand (Game.player1 g) (Game.player1 (pass b s)) /\
   same_stand (Game.player2 g) (Game.player2 (pass b s))).
Proof.
  intros (Ex & Ey & H1 & H2). unfold pass.
  destruct (Bullet.alive b); [|tauto]. cbn.
  pose proof (struck_stand b (Game.player1 s)) as S1.
  pose proof (struck_stand b (Game.player2 s)) as S2.
  unfold same_stand in *. intuition congruence.
Qed.

(** X6: collision resolution only removes items and takes health: the
    obstacles it returns are the obstacles it received, in order, minus
    those that the bullets of the tick leave dead; every bullet it returns
    is alive and was among the bullets it received, so there are no more
    bullets than before; the playfield keeps its size and each tank keeps
    its position, heading, glyph and shot timer. *)
Theorem check_collisions_only_removes (g : Game.t) :
  let g' := Game.check_collisions g in
  Game.obstacles g' =
    filter (fun o => Obstacle.alive (wreck_all (Game.bullets g) o))
           (Game.obstacles g) /\
  (forall b, In b (Game.bullets g') -> In b (Game.bullets g) /\ Bullet.alive b = true) /\
  (List.length (Game.bullets g') <= List.length (Game.bullets g))%nat /\
  Game.max_x g' = Game.max_x g /\ Game.max_y g' = Game.max_y g /\
  (Tank.x (Game.player1 g') = Tank.x (Game.player1 g) /\
   Tank.y (Game.player1 g') = Tank.y (Game.player1 g) /\
   Tank.direction (Game.player1 g') = Tank.direction (Game.player1 g) /\
   Tank.symbol (Game.player1 g') = Tank.symbol (Game.player1 g) /\
   Tank.last_shot_time (Game.player1 g') = Tank.last_shot_time (Game.player1 g)) /\
  (Tank.x (Game.player2 g') = Tank.x (Game.player2 g) /\
   Tank.y (Game.player2 g') = Tank.y (Game.player2 g) /\
   Tank.direction (Game.player2 g') = Tank.direction (Game.player2 g) /\
   Tank.symbol (Game.player2 g') = Tank.symbol (Game.player2 g) /\
   Tank.last_shot_time (Game.player2 g') = Tank.last_shot_time (Game.player2 g)).
Proof.
  intro g'. subst g'. split; [apply check_collisions_obstacles|].
  rewrite check_collisions_eq.
  cbn [Game.compact Game.bullets Game.max_x Game.max_y Game.player1 Game.player2].
  split; [|split].
  - intros b Hb. apply filter_In in Hb as [Hb A].
    split; [exact (survivors_from _ _ _ Hb A) | exact A].
  - pose proof (filter_length_le Bullet.alive
                  (fst (Game.collide_all (Game.bullets g) g))) as L.
    rewrite collide_all_length in L. exact L.
  - pose proof (collide_all_keeps _ (pass_stand g) (Game.bullets g) g) as H.
    destruct H as (Ex & Ey & S1 & S2).
    { unfold same_stand. repeat split. }
    unfold same_stand in *. tauto.
Qed.

(** ** Collision resolution, twice *)

Lemma existsb_false {A} (f : A -> bool) (l : list A) :
  existsb f l = false <-> forall a, In a l -> f a = false.
Proof.
  split.
  - intros H a Ha. destruct (f a) eqn:E; [|reflexivity].
    rewrite <- H. symmetry. apply existsb_exists. now exists a.
  - intro H. destruct (existsb f l) eqn:E; [|reflexivity].
    apply existsb_exists in E as (a & Ha & Fa). rewrite (H a Ha) in Fa. discriminate.
Qed.

Lemma filter_twice {A} (f : A -> bool) (l : list A) :
  filter f (filter f l) = filter f l.
Proof.
  induction l as [|a r IH]; [reflexivity|].
  cbn. destruct (f a) eqn:E; [|exact IH]. cbn. now rewrite E, IH.
Qed.

Lemma strikes_struck (c b : Bullet.t) (p : Tank.t) :
  Game.strikes c (struck b p) = true -> Game.strikes c p = true.
Proof.
  unfold Game.strikes. destruct (struck_stand b p) as (-> & -> & _).
  rewrite !andb_true_iff. intros [[A X] Y].
  apply struck_alive_inv in A as [A _]. tauto.
Qed.

Lemma strikes_obstacle_wreck (c b : Bullet.t) (o : Obstacle.t) :
  Game.strikes_obstacle c (wreck b o) = true -> Game.strikes_obstacle c o = true.
Proof.
  destruct (wreck_cases b o) as [-> | ->]; [tauto|].
  unfold Game.strikes_obstacle. cbn. discriminate.
Qed.

Lemma meets_pass (c b : Bullet.t) (s : Game.t) :
  meets c s = false -> meets c (pass b s) = false.
Proof.
  intro H. unfold pass. destruct (Bullet.alive b); [|exact H].
  destruct (meets c (after b s)) eqn:E; [|reflexivity].
  rewrite <- H. symmetry. unfold meets in *.
  cbn [after Game.player1 Game.player2 Game.obstacles] in E.
  rewrite !orb_true_iff in *. destruct E as [[E | E] | E].
  - left. left. exact (strikes_struck _ _ _ E).
  - left. right. exact (strikes_struck _ _ _ E).
  - right. apply existsb_exists in E as (o' & Ho & So).
    apply in_map_iff in Ho as (o & <- & Ho).
    apply existsb_exists. exists o. split; [exact Ho|].
    exact (strikes_obstacle_wreck _ _ _ So).
Qed.

Lemma pass_quiet (b : Bullet.t) (s : Game.t) : meets b s = false -> pass b s = s.
Proof.
  intro H. unfold pass. destruct (Bullet.alive b); [|reflexivity].
  unfold meets in H. rewrite !orb_false_iff in H. destruct H as [[S1 S2] So].
  destruct s as [mx my p1 p2 bs os go wn].
  cbn [Game.player1 Game.player2 Game.obstacles] in *.
  unfold after, struck, fells.
  cbn [Game.player1 Game.player2 Game.obstacles Game.max_x Game.max_y
       Game.bullets Game.game_over Game.winner].
  rewrite S1, S2. cbn [andb orb].
  replace (map (wreck b) os) with os; [reflexivity|].
  rewrite <- (map_id os) at 1. apply map_ext_in. intros o Ho.
  unfold wreck. now rewrite (proj1 (existsb_false _ _) So o Ho).
Qed.

Lemma collide_all_quiet (bs : list Bullet.t) (s : Game.t) :
  Forall (fun b => meets b s = false) bs -> Game.collide_all bs s = (bs, s).
Proof.
  induction 1 as [|b r Hb _ IH]; [reflexivity|].
  rewrite collide_all_cons, (pass_quiet b s Hb), IH. cbn [fst snd].
  unfold spent. now rewrite Hb, andb_false_r.
Qed.

Lemma survivors_quiet (bs : list Bullet.t) : forall (s : Game.t) (b : Bullet.t),
  In b (fst (Game.collide_all bs s)) -> Bullet.alive b = true ->
  meets b (snd (Game.collide_all bs s)) = false.
Proof.
  induction bs as [|c r IH]; intros s b H A; [destruct H|].
  rewrite collide_all_cons in *. cbn [fst snd] in *. destruct H as [<- | H].
  - unfold spent in *. destruct (Bullet.alive c && meets c s) eqn:E; [discriminate|].
    rewrite A in E. cbn [andb] in E. rewrite (pass_quiet c s E).
    exact (collide_all_keeps (fun s' => meets c s' = false)
             (fun b' s' => meets_pass c b' s') r s E).
  - exact (IH _ _ H A).
Qed.

(** X7: collision resolution is idempotent: resolving the collisions of a
    session whose collisions have just been resolved changes nothing. *)
Theorem check_collisions_idempotent (g : Game.t) :
  Game.check_collisions (Game.check_collisions g) = Game.check_collisions g.
Proof.
  rewrite (check_collisions_eq g).
  set (bs := fst (Game.collide_all (Game.bullets g) g)).
  set (s := snd (Game.collide_all (Game.bullets g) g)).
  assert (Q : Forall (fun b => meets b (Game.compact bs s) = false)
                     (filter Bullet.alive bs)).
  { apply Forall_forall. intros b Hb. apply filter_In in Hb as [Hb A].
    pose proof (survivors_quiet _ _ _ Hb A) as M. fold s in M.
    unfold meets in *. cbn [Game.compact Game.player1 Game.player2 Game.obstacles].
    rewrite !orb_false_iff in *. destruct M as [M12 Mo]. split; [exact M12|].
    apply existsb_false. intros o Ho. apply filter_In in Ho as [Ho _].
    exact (proj1 (existsb_false _ _) Mo o Ho). }
  rewrite check_collisions_eq.
  change (Game.bullets (Game.compact bs s)) with (filter Bullet.alive bs).
  rewrite (collide_all_quiet _ _ Q). cbn [fst snd].
  unfold Game.compact at 1.
  cbn [Game.compact Game.max_x Game.max_y Game.player1 Game.player2
       Game.obstacles Game.game_over Game.winner].
  now rewrite !filter_twice.
Qed.

(** ** The loop *)

Lemma run_over (n : nat) (g : Game.t) (w : World) :
  Game.game_over g = true -> Game.run n g w = (g, w).
Proof.
  intro H. destruct n; [reflexivity|]. cbn [Game.run]. now rewrite H.
Qed.

Lemma run_add (n m : nat) : forall g w,
  Game.run (n + m) g w = let (g', w') := Game.run n g w in Game.run m g' w'.
Proof.
  induction n as [|n IH]; intros g w; [reflexivity|].
  cbn [Nat.add Game.run]. destruct (Game.game_over g) eqn:E.
  - unfold ret. now rewrite run_over.
  - unfold bind. destruct (Game.round g w) as [g1 w1]. apply IH.
Qed.

Lemma skipn_tl {A} (k : nat) (l : list A) : skipn (S k) l = skipn k (tl l).
Proof.
  destruct l; [now rewrite !skipn_nil | reflexivity].
Qed.

Lemma run_pending (n : nat) : forall g w,
  exists k, (k <= n)%nat /\
            pending (snd (Game.run n g w)) = skipn k (pending w) /\
            (Game.game_over (fst (Game.run n g w)) = false -> k = n).
Proof.
  induction n as [|n IH]; intros g w.
  - exists 0%nat. repeat split. lia.
  - cbn [Game.run]. destruct (Game.game_over g) eqn:E.
    + exists 0%nat. cbn. split; [lia|]. split; [reflexivity | congruence].
    + unfold bind. pose proof (round_pending g w) as P.
      destruct (Game.round g w) as [g1 w1]. cbn [snd] in P.
      destruct (IH g1 w1) as (k & Hk & Hp & Hg).
      exists (S k). split; [lia|]. split.
      * now rewrite skipn_tl, <- P.
      * intro F. now rewrite (Hg F).
Qed.

Lemma pass_game_over (b : Bullet.t) (s : Game.t) :
  Game.game_over s = true -> Game.game_over (pass b s) = true.
Proof.
  intro H. unfold pass. destruct (Bullet.alive b); [|exact H].
  cbn. rewrite H. apply orb_true_r.
Qed.

Lemma round_game_over (g : Game.t) (w : World) :
  Game.game_over g = true -> Game.game_over (fst (Game.round g w)) = true.
Proof.
  apply (round_keeps (fun g => Game.game_over g = true)); try (intros; assumption).
  - intros g0 w0 H. rewrite fire1_eq. now destruct (Qgtb _ _).
  - intros g0 w0 H. rewrite fire2_eq. now destruct (Qgtb _ _).
  - reflexivity.
  - intros b s. apply pass_game_over.
Qed.

(** X8: the loop of [run] makes no round once the game is over and leaves
    the session and the world as they are; running [n + m] rounds is running
    [n] rounds and then [m]; a game that is over stays over; [n] rounds of
    the loop take at most [n] keys off the pending ones, in order, and
    exactly [n] when the game is not over at the end. *)
Theorem run_stops_at_game_over (n m : nat) (g : Game.t) (w : World) :
  (Game.game_over g = true -> Game.run n g w = (g, w)) /\
  Game.run (n + m) g w = (let (g', w') := Game.run n g w in Game.run m g' w') /\
  (Game.game_over g = true -> Game.game_over (fst (Game.round g w)) = true) /\
  (exists k, (k <= n)%nat /\
             pending (snd (Game.run n g w)) = skipn k (pending w) /\
             (Game.game_over (fst (Game.run n g w)) = false -> k = n)).
Proof.
  split; [apply run_over|]. split; [apply run_add|].
  split; [apply round_game_over | apply run_pending].
Qed.

Lemma run_stops_at_game_over_witness :
  Game.run 5 (fst (Game.run 17 duel_init duel_world)) duel_world =
  (fst (Game.run 17 duel_init duel_world), duel_world).
Proof.
  apply (proj1 (run_stops_at_game_over 5 0 _ duel_world)).
  vm_compute. reflexivity.
Defined.

(** X9: a round that reads the key [q] ends the game, whatever the session
    and the clock, and leaves both tanks where they were; the loop of [run]
    makes that round and no other. *)
Theorem quit_ends_game (n : nat) (g : Game.t) (w : World) :
  hd (-1) (pending w) = ord "q" ->
  Game.game_over (fst (Game.round g w)) = true /\
  Tank.x (Game.player1 (fst (Game.round g w))) = Tank.x (Game.player1 g) /\
  Tank.y (Game.player1 (fst (Game.round g w))) = Tank.y (Game.player1 g) /\
  Tank.x (Game.player2 (fst (Game.round g w))) = Tank.x (Game.player2 g) /\
  Tank.y (Game.player2 (fst (Game.round g w))) = Tank.y (Game.player2 g) /\
  (Game.game_over g = false -> Game.run (S n) g w = Game.round g w).
Proof.
  intro K.
  assert (E : fst (Game.round g w) =
              Game.check_collisions
                (fst (Game.update_bullets (Game.set_game_over g) (snd (getch w))))).
  { rewrite round_before. unfold before_collisions, bind.
    assert (G : fst (getch w) = ord "q").
    { rewrite <- K. unfold getch. now destruct (pending w). }
    destruct (getch w) as [key w1]. cbn [fst snd] in *. subst key. reflexivity. }
  assert (O : Game.game_over (fst (Game.round g w)) = true).
  { rewrite E, check_collisions_eq. cbn [Game.compact Game.game_over].
    apply (collide_all_keeps (fun s => Game.game_over s = true) pass_game_over).
    now rewrite update_bullets_frame. }
  split; [exact O|].
  assert (S : same_stand (Game.player1 g) (Game.player1 (fst (Game.round g w))) /\
              same_stand (Game.player2 g) (Game.player2 (fst (Game.round g w)))).
  { rewrite E, check_collisions_eq.
    cbn [Game.compact Game.player1 Game.player2].
    set (g2 := fst (Game.update_bullets (Game.set_game_over g) (snd (getch w)))).
    pose proof (collide_all_keeps _ (pass_stand g2) (Game.bullets g2) g2) as H.
    destruct H as (_ & _ & S1 & S2).
    { unfold same_stand. repeat split. }
    assert (P1 : Game.player1 g2 = Game.player1 g)
      by (unfold g2; now rewrite update_bullets_frame).
    assert (P2 : Game.player2 g2 = Game.player2 g)
      by (unfold g2; now rewrite update_bullets_frame).
    rewrite P1 in S1. rewrite P2 in S2. split; assumption. }
  destruct S as [(X1 & Y1 & _) (X2 & Y2 & _)].
  repeat split; try assumption.
  intro F. cbn [Game.run]. rewrite F. unfold bind.
  destruct (Game.round g w) as [g1 w1]. cbn [fst] in O. now apply run_over.
Qed.

Lemma quit_ends_game_witness :
  Game.game_over
    (fst (Game.round duel_init (mkWorld (fun _ => 1%Q) [ord "q"; ord "d"]))) = true.
Proof.
  apply (quit_ends_game 0 duel_init (mkWorld (fun _ => 1%Q) [ord "q"; ord "d"])).
  reflexivity.
Defined.

(** ** A bullet in flight *)

(** X10: over any number of calls of [update] a bullet keeps its heading and
    its speed setting and stays on the line of its heading: it is [k] cells
    further for some [k] that is at most the number of calls; and a bullet
    that is dead is never alive again. *)
Theorem bullet_flies_straight (n : nat) (mx my : Z) :
  forall (b : Bullet.t) (w : World),
    let b' := fst (updates n b mx my w) in
    Bullet.direction b' = Bullet.direction b /\
    Bullet.speed b' = Bullet.speed b /\
    (Bullet.alive b' = true -> Bullet.alive b = true) /\
    exists k, 0 <= k <= Z.of_nat n /\
              Bullet.x b' = Bullet.x b + k * fst (value (Bullet.direction b)) /\
              Bullet.y b' = Bullet.y b + k * snd (value (Bullet.direction b)).
Proof.
  induction n as [|n IH]; intros b w b'; subst b'.
  - cbn. repeat split; try tauto. exists 0. lia.
  - cbn [updates]. unfold bind. rewrite update_eq.
    destruct (Qgtb _ _).
    + specialize (IH (expire mx my (flown b (clock w 0%nat))) (tick w)).
      cbn zeta in IH.
      destruct (expire_fields mx my (flown b (clock w 0%nat)))
        as (Ex & Ey & Ed & _ & Es & _).
      pose proof (expire_alive mx my (flown b (clock w 0%nat))) as Ea.
      rewrite Ex, Ey, Ed, Es in IH. cbn [flown Bullet.x Bullet.y Bullet.direction
        Bullet.speed Bullet.alive] in *.
      destruct IH as (Hd & Hs & Ha & k & Hk & Hx & Hy).
      split; [exact Hd|]. split; [exact Hs|]. split; [tauto|].
      exists (k + 1). split; [lia|]. split; lia.
    + specialize (IH b (tick w)). cbn zeta in IH.
      destruct IH as (Hd & Hs & Ha & k & Hk & Hx & Hy).
      split; [exact Hd|]. split; [exact Hs|]. split; [exact Ha|].
      exists k. split; [lia|]. split; assumption.
Qed.

Lemma strikes_elsewhere (b : Bullet.t) (p : Tank.t) :
  Bullet.x b <> Tank.x p \/ Bullet.y b <> Tank.y p -> Game.strikes b p = false.
Proof.
  intro H. unfold Game.strikes.
  destruct (Bullet.x b =? Tank.x p) eqn:Ex; [|apply andb_false_iff; left; apply andb_false_r].
  destruct (Bullet.y b =? Tank.y p) eqn:Ey; [|apply andb_false_r].
  apply Z.eqb_eq in Ex, Ey. tauto.
Qed.

(** X11: the bullet that [shoot] returns is not on the cell of the tank that
    fired it, and neither is it after its first [update], moved or not: a
    tank is not hit by its own bullet in the round in which it fires. *)
Theorem own_bullet_misses (self : Tank.t) (w : World) (mx my : Z)
        (b : Bullet.t) (self' : Tank.t) (w' : World) :
  Tank.shoot self w = ((Some b, self'), w') ->
  Game.strikes b self' = false /\
  forall w'', Game.strikes (fst (Bullet.update b mx my w'')) self' = false.
Proof.
  rewrite shoot_eq. destruct (Qgtb _ _); [|discriminate].
  intro E. injection E as <- <- _. split.
  - apply strikes_elsewhere. cbn. destruct (Tank.direction self); cbn; lia.
  - intro w''. rewrite update_eq. cbn [fst].
    apply strikes_elsewhere.
    destruct (Qgtb _ _).
    + destruct (expire_fields mx my (flown (muzzle self (clock w 1%nat)) (clock w'' 0%nat)))
        as (-> & -> & _).
      cbn. destruct (Tank.direction self); cbn; lia.
    + cbn. destruct (Tank.direction self); cbn; lia.
Qed.

Lemma own_bullet_misses_witness :
  Game.strikes (muzzle tank_A 1%Q) (Tank.stamp tank_A 1%Q) = false.
Proof.
  apply (own_bullet_misses tank_A (mkWorld (fun _ => 1%Q) []) 40 20
           (muzzle tank_A 1%Q) (Tank.stamp tank_A 1%Q)
           (tick (tick (mkWorld (fun _ => 1%Q) [])))).
  reflexivity.
Defined.

(** ** Hits *)

(** X12: a tank that is alive with health [h > 0] has health [h - n] after
    [n] hits, below zero when [n > h], and is alive after them exactly when
    [n < h]: it survives [h - 1] hits, the next one brings it down, and no
    later hit brings it back. *)
Theorem hits_bring_down (p : Tank.t) (n : nat) :
  Tank.alive p = true -> 0 < Tank.health p ->
  Tank.health (Nat.iter n Tank.hit p) = Tank.health p - Z.of_nat n /\
  (Tank.alive (Nat.iter n Tank.hit p) = true <-> Z.of_nat n < Tank.health p).
Proof.
  intros A H. induction n as [|n [IHh IHa]].
  - cbn. split; [lia | tauto].
  - change (Nat.iter (S n) Tank.hit p) with (Tank.hit (Nat.iter n Tank.hit p)).
    rewrite hit_health, hit_alive, IHh. split; [lia|].
    destruct (Tank.health p - Z.of_nat n - 1 <=? 0) eqn:E.
    + apply Z.leb_le in E. split; [discriminate | lia].
    + apply Z.leb_gt in E. rewrite IHa. lia.
Qed.

Lemma hits_bring_down_witness :
  Tank.health (Nat.iter 3 Tank.hit tank_A) = 3 - Z.of_nat 3 /\
  (Tank.alive (Nat.iter 2 Tank.hit tank_A) = true <-> Z.of_nat 2 < 3).
Proof.
  split.
  - apply (hits_bring_down tank_A 3); [reflexivity | reflexivity].
  - apply (hits_bring_down tank_A 2); [reflexivity | reflexivity].
Defined.

(** ** Bullets from round to round *)

Lemma mapM_length {A B} (f : A -> M B) (l : list A) : forall w : World,
  List.length (fst (mapM f l w)) = List.length l.
Proof.
  induction l as [|a r IH]; intro w; [reflexivity|].
  cbn [mapM]. unfold bind. destruct (f a w) as [b w1].
  specialize (IH w1). destruct (mapM f r w1) as [bs w2]. cbn in *. now rewrite IH.
Qed.

Lemma check_collisions_fewer (g : Game.t) :
  (List.length (Game.bullets (Game.check_collisions g)) <=
   List.length (Game.bullets g))%nat.
Proof.
  rewrite check_collisions_eq. cbn [Game.compact Game.bullets].
  pose proof (filter_length_le Bullet.alive
                (fst (Game.collide_all (Game.bullets g) g))) as L.
  now rewrite collide_all_length in L.
Qed.

(** X13: a round leaves at most one bullet more than it found, and no more
    than it found unless the key it read is a fire key. *)
Theorem one_new_bullet_per_round (g : Game.t) (w : World) :
  (List.length (Game.bullets (fst (Game.round g w))) <=
   List.length (Game.bullets g) + 1)%nat /\
  (hd (-1) (pending w) <> ord " " -> hd (-1) (pending w) <> ord newline ->
   (List.length (Game.bullets (fst (Game.round g w))) <=
    List.length (Game.bullets g))%nat).
Proof.
  rewrite round_before.
  pose proof (check_collisions_fewer (fst (before_collisions g w))) as C.
  unfold before_collisions, bind in *.
  assert (G : fst (getch w) = hd (-1) (pending w)).
  { unfold getch. now destruct (pending w). }
  destruct (getch w) as [key w1]. cbn [fst] in G. rewrite <- G.
  pose proof (handle_input_perform g key) as HP.
  assert (U : forall a, action_of_key key = Some a ->
                        untouched a g (fst (Game.handle_input g key w1))).
  { intros a E. rewrite HP, E. apply perform_untouched. }
  assert (N : action_of_key key = None -> fst (Game.handle_input g key w1) = g).
  { intro E. now rewrite HP, E. }
  destruct (Game.handle_input g key w1) as [g1 w2]. cbn [fst] in *.
  rewrite update_bullets_frame in *. cbn [Game.set_bullets Game.bullets] in *.
  rewrite mapM_length in C.
  assert (F : key = ord " " \/ key = ord newline \/
              List.length (Game.bullets g1) = List.length (Game.bullets g)).
  { destruct (action_of_key key) as [a|] eqn:E.
    - specialize (U a eq_refl). unfold action_of_key in E.
      destruct (key =? ord "w") eqn:K1;
        [injection E as <-; right; right; cbn in U; now rewrite (proj1 (proj2 U))|].
      destruct (key =? ord "s") eqn:K2;
        [injection E as <-; right; right; cbn in U; now rewrite (proj1 (proj2 U))|].
      destruct (key =? ord "a") eqn:K3;
        [injection E as <-; right; right; cbn in U; now rewrite (proj1 (proj2 U))|].
      destruct (key =? ord "d") eqn:K4;
        [injection E as <-; right; right; cbn in U; now rewrite (proj1 (proj2 U))|].
      destruct (key =? ord " ") eqn:K5; [left; now apply Z.eqb_eq|].
      destruct (key =? KEY_UP) eqn:K6;
        [injection E as <-; right; right; cbn in U; now rewrite (proj1 (proj2 U))|].
      destruct (key =? KEY_DOWN) eqn:K7;
        [injection E as <-; right; right; cbn in U; now rewrite (proj1 (proj2 U))|].
      destruct (key =? KEY_LEFT) eqn:K8;
        [injection E as <-; right; right; cbn in U; now rewrite (proj1 (proj2 U))|].
      destruct (key =? KEY_RIGHT) eqn:K9;
        [injection E as <-; right; right; cbn in U; now rewrite (proj1 (proj2 U))|].
      destruct (key =? ord newline) eqn:K10; [right; left; now apply Z.eqb_eq|].
      destruct (key =? ord "q") eqn:K11; [|discriminate].
      injection E as <-. right. right. cbn in U. now rewrite (proj2 (proj2 U)).
    - right. right. now rewrite (N eq_refl). }
  assert (L : (List.length (Game.bullets g1) <= List.length (Game.bullets g) + 1)%nat).
  { destruct (action_of_key key) as [a|] eqn:E.
    - specialize (U a eq_refl).
      destruct a as [[|] d | [|] |]; cbn in U.
      + rewrite (proj1 (proj2 U)). lia.
      + rewrite (proj1 (proj2 U)). lia.
      + destruct U as (_ & _ & [-> | [b ->]]); [lia|]. rewrite length_app. cbn. lia.
      + destruct U as (_ & _ & [-> | [b ->]]); [lia|]. rewrite length_app. cbn. lia.
      + rewrite (proj2 (proj2 U)). lia.
    - rewrite (N eq_refl). lia. }
  split; [lia|]. intros K1 K2. destruct F as [F | [F | F]]; [tauto | tauto | lia].
Qed.

Lemma one_new_bullet_per_round_witness :
  (List.length
     (Game.bullets (fst (Game.round duel_init (mkWorld (fun _ => 1%Q) [ord "d"])))) <=
   List.length (Game.bullets duel_init))%nat.
Proof.
  apply (proj2 (one_new_bullet_per_round duel_init (mkWorld (fun _ => 1%Q) [ord "d"])));
    cbn; discriminate.
Defined.

Lemma filter_all {A} (f : A -> bool) (l : list A) :
  Forall (fun a => f a = true) l -> filter f l = l.
Proof.
  induction 1 as [|a r Ha _ IH]; [reflexivity|]. cbn. now rewrite Ha, IH.
Qed.

(** X14: in a state of a session with no bullet in flight, a round that finds
    no pending key changes nothing: the session and the world, clock
    included, are as before. *)
Theorem idle_round_changes_nothing (g : Game.t) (w : World) :
  reachable g -> Game.bullets g = [] -> pending w = [] ->
  Game.round g w = (g, w).
Proof.
  intros R B P. rewrite round_eq.
  unfold getch. rewrite P.
  change (Game.handle_input g (-1) w) with (g, w).
  unfold Game.update_bullets, bind. rewrite B. cbn [mapM]. unfold ret.
  rewrite check_collisions_eq. cbn [Game.set_bullets Game.bullets Game.collide_all
    fst snd Game.compact filter Game.max_x Game.max_y Game.player1 Game.player2
    Game.obstacles Game.game_over Game.winner].
  destruct (reachable_stock g R) as (_ & Ho & _).
  unfold Game.compact, Game.set_bullets.
  cbn [filter Game.max_x Game.max_y Game.player1 Game.player2 Game.obstacles
       Game.game_over Game.winner].
  rewrite filter_all.
  - destruct g. cbn in *. now subst.
  - eapply Forall_impl; [|exact Ho]. cbn. tauto.
Qed.

Lemma idle_round_changes_nothing_witness :
  Game.round duel_init (mkWorld (fun _ => 1%Q) []) =
  (duel_init, mkWorld (fun _ => 1%Q) []).
Proof.
  apply idle_round_changes_nothing; [apply reach_init | reflexivity | reflexivity].
Defined.

(** ** Settings that never change *)

Lemma update_speed (b : Bullet.t) (mx my : Z) (w : World) :
  Bullet.speed (fst (Bullet.update b mx my w)) = Bullet.speed b.
Proof.
  rewrite update_eq. cbn [fst]. destruct (Qgtb _ _); [|reflexivity].
  now destruct (expire_fields mx my (flown b (clock w 0%nat))) as (_ & _ & _ & _ & -> & _).
Qed.

Lemma mapM_update_keeps (P : Bullet.t -> Prop) (mx my : Z) :
  (forall b w, P b -> P (fst (Bullet.update b mx my w))) ->
  forall bs w, Forall P bs ->
               Forall P (fst (mapM (fun b => Bullet.update b mx my) bs w)).
Proof.
  intros H bs. induction bs as [|b r IH]; intros w F; [constructor|].
  inversion F as [|? ? Hb Hr]; subst.
  cbn [mapM]. unfold bind.
  pose proof (H b w Hb) as Hb'.
  destruct (Bullet.update b mx my w) as [b' w1]. cbn [fst] in Hb'.
  specialize (IH w1 Hr).
  destruct (mapM _ r w1) as [bs' w2]. cbn in *. now constructor.
Qed.

Lemma handle_input_bullets (g : Game.t) (key : Z) (w : World) :
  Game.bullets (fst (Game.handle_input g key w)) = Game.bullets g \/
  exists p t, Game.bullets (fst (Game.handle_input g key w)) =
              Game.bullets g ++ [muzzle p t].
Proof.
  rewrite handle_input_perform.
  destruct (action_of_key key) as [[[|] d | [|] |]|]; cbn [perform];
    try (left; reflexivity).
  - rewrite fire1_eq. destruct (Qgtb _ _); [right | left; reflexivity].
    eexists _, _. reflexivity.
  - rewrite fire2_eq. destruct (Qgtb _ _); [right | left; reflexivity].
    eexists _, _. reflexivity.
Qed.

Lemma round_bullets_keep (P : Bullet.t -> Prop) :
  (forall p t, P (muzzle p t)) ->
  (forall b mx my w, P b -> P (fst (Bullet.update b mx my w))) ->
  forall g w, Forall P (Game.bullets g) ->
              Forall P (Game.bullets (fst (Game.round g w))).
Proof.
  intros Hm Hu g w F. rewrite round_before, check_collisions_eq.
  cbn [Game.compact Game.bullets].
  unfold before_collisions, bind.
  destruct (getch w) as [key w1].
  pose proof (handle_input_bullets g key w1) as B.
  destruct (Game.handle_input g key w1) as [g1 w2]. cbn [fst] in B.
  rewrite update_bullets_frame.
  assert (F1 : Forall P (Game.bullets g1)).
  { destruct B as [-> | (p & t & ->)]; [exact F|].
    apply Forall_app. split; [exact F|]. constructor; [apply Hm | constructor]. }
  pose proof (mapM_update_keeps P (Game.max_x g1) (Game.max_y g1)
                (fun b w0 => Hu b _ _ w0) (Game.bullets g1) w2 F1) as F2.
  apply Forall_forall. intros b Hb. apply filter_In in Hb as [Hb A].
  apply survivors_from in Hb; [|exact A].
  cbn [Game.set_bullets Game.bullets] in Hb.
  rewrite Forall_forall in F2. now apply F2.
Qed.

(** X15: in every state of a session both tanks have the cooldown of 0.5 s
    and every bullet in the collection has the interval of 0.1 s: nothing in
    the game changes these settings. *)
Theorem settings_never_change (g : Game.t) :
  reachable g ->
  Tank.shot_cooldown (Game.player1 g) = (1 # 2)%Q /\
  Tank.shot_cooldown (Game.player2 g) = (1 # 2)%Q /\
  Forall (fun b => Bullet.speed b = (1 # 10)%Q) (Game.bullets g).
Proof.
  intro R.
  assert (T : both tank_cooldown g).
  { revert g R. apply (reachable_keeps (both tank_cooldown)).
    - intros mx my rand. split; reflexivity.
    - intros g0 w H.
      apply (round_keeps_both tank_cooldown (Game.max_x g0) (Game.max_y g0)
               (fun p dx dy H => eq_trans (proj2 (move_keeps_timer p dx dy _ _)) H)
               (fun p t H => H) (fun p H => H) g0 w).
      repeat split; apply H. }
  destruct T as [T1 T2]. split; [exact T1|]. split; [exact T2|].
  clear T1 T2. induction R as [mx my rand | g w _ IH _]; [constructor|].
  apply round_bullets_keep; [reflexivity | | exact IH].
  intros b mx my w0 H. now rewrite update_speed.
Qed.

Lemma settings_never_change_witness :
  Tank.shot_cooldown (Game.player1 (fst (Game.run 9 ambush_init ambush_world))) =
  (1 # 2)%Q.
Proof.
  assert (R : reachable (fst (Game.run 9 ambush_init ambush_world)))
    by apply run_reachable, reach_init.
  exact (proj1 (settings_never_change _ R)).
Defined.

(** ** What collision resolution spares *)

Lemma quiet_survives (bs : list Bullet.t) : forall (s : Game.t) (b : Bullet.t),
  In b bs -> Bullet.alive b = true -> meets b s = false ->
  In b (fst (Game.collide_all bs s)).
Proof.
  induction bs as [|c r IH]; intros s b H A M; [destruct H|].
  rewrite collide_all_cons. cbn [fst]. destruct H as [-> | H].
  - left. unfold spent. now rewrite M, andb_false_r.
  - right. apply IH; [exact H | exact A | now apply meets_pass].
Qed.

(** X16: collision resolution removes no live bullet without a match: a live
    bullet that lies neither on an alive tank nor on an alive obstacle is
    still in the collection afterwards, unchanged. *)
Theorem unmatched_bullet_survives (g : Game.t) (b : Bullet.t) :
  In b (Game.bullets g) -> Bullet.alive b = true ->
  Game.strikes b (Game.player1 g) = false ->
  Game.strikes b (Game.player2 g) = false ->
  (forall o, In o (Game.obstacles g) -> Game.strikes_obstacle b o = false) ->
  In b (Game.bullets (Game.check_collisions g)).
Proof.
  intros H A S1 S2 So. rewrite check_collisions_eq. cbn [Game.compact Game.bullets].
  apply filter_In. split; [|exact A].
  apply quiet_survives; [exact H | exact A|].
  unfold meets. rewrite S1, S2. cbn [orb]. now apply existsb_false.
Qed.

Lemma unmatched_bullet_survives_witness :
  In (Bullet.mk 12 4 "•" true LEFT (1 # 10) 1)
     (Game.bullets
        (Game.check_collisions
           (Game.set_bullets ambush_init [Bullet.mk 12 4 "•" true LEFT (1 # 10) 1]))).
Proof.
  apply unmatched_bullet_survives.
  - left. reflexivity.
  - reflexivity.
  - reflexivity.
  - reflexivity.
  - intros o Ho.
    apply (init_obstacles 20 8
             (fun i => match i with O => (10, 4) | _ => (10, 3) end)) in Ho
      as (i & _ & ->).
    destruct i; reflexivity.
Defined.

(** ** How much a tick can cost a tank *)

Lemma collide_all_cost (bs : list Bullet.t) : forall s : Game.t,
  Tank.health (Game.player1 s) - Z.of_nat (List.length bs) <=
    Tank.health (Game.player1 (snd (Game.collide_all bs s))) /\
  Tank.health (Game.player2 s) - Z.of_nat (List.length bs) <=
    Tank.health (Game.player2 (snd (Game.collide_all bs s))).
Proof.
  induction bs as [|b r IH]; intro s; [cbn; lia|].
  rewrite collide_all_cons. cbn [snd]. specialize (IH (pass b s)).
  assert (H : Tank.health (Game.player1 s) - 1 <= Tank.health (Game.player1 (pass b s)) /\
              Tank.health (Game.player2 s) - 1 <= Tank.health (Game.player2 (pass b s))).
  { unfold pass. destruct (Bullet.alive b); cbn; [|lia].
    pose proof (struck_health b (Game.player1 s)).
    pose proof (struck_health b (Game.player2 s)). lia. }
  cbn [List.length]. lia.
Qed.

Lemma collide_all_misses1 (bs : list Bullet.t) : forall s : Game.t,
  Forall (fun c => Bullet.alive c && Game.strikes c (Game.player1 s) = false) bs ->
  Game.player1 (snd (Game.collide_all bs s)) = Game.player1 s.
Proof.
  induction bs as [|b r IH]; intros s F; [reflexivity|].
  inversion F as [|? ? Hb Hr]; subst.
  rewrite collide_all_cons. cbn [snd].
  pose proof (missed1_pass b s Hb) as E.
  rewrite IH; [exact E | now rewrite E].
Qed.

Lemma collide_all_misses2 (bs : list Bullet.t) : forall s : Game.t,
  Forall (fun c => Bullet.alive c && Game.strikes c (Game.player2 s) = false) bs ->
  Game.player2 (snd (Game.collide_all bs s)) = Game.player2 s.
Proof.
  induction bs as [|b r IH]; intros s F; [reflexivity|].
  inversion F as [|? ? Hb Hr]; subst.
  rewrite collide_all_cons. cbn [snd].
  pose proof (missed2_pass b s Hb) as E.
  rewrite IH; [exact E | now rewrite E].
Qed.

(** X17: in one tick collision resolution takes from each tank at most as
    many points of health as there are bullets in the collection, and it
    leaves a tank exactly as it is when no live bullet lies on its cell. *)
Theorem tick_cost_bounded (g : Game.t) :
  Tank.health (Game.player1 g) - Z.of_nat (List.length (Game.bullets g)) <=
    Tank.health (Game.player1 (Game.check_collisions g)) /\
  Tank.health (Game.player2 g) - Z.of_nat (List.length (Game.bullets g)) <=
    Tank.health (Game.player2 (Game.check_collisions g)) /\
  (Forall (fun c => Bullet.alive c && Game.strikes c (Game.player1 g) = false)
          (Game.bullets g) ->
   Game.player1 (Game.check_collisions g) = Game.player1 g) /\
  (Forall (fun c => Bullet.alive c && Game.strikes c (Game.player2 g) = false)
          (Game.bullets g) ->
   Game.player2 (Game.check_collisions g) = Game.player2 g).
Proof.
  rewrite check_collisions_eq. cbn [Game.compact Game.player1 Game.player2].
  destruct (collide_all_cost (Game.bullets g) g) as [H1 H2].
  split; [exact H1|]. split; [exact H2|]. split.
  - apply collide_all_misses1.
  - apply collide_all_misses2.
Qed.

Lemma tick_cost_bounded_witness :
  List.length (Game.bullets ambush) = 1%nat /\
  Forall (fun c => Bullet.alive c && Game.strikes c (Game.player2 ambush) = false)
         (Game.bullets ambush) /\
  Game.player2 (Game.check_collisions ambush) = Game.player2 ambush /\
  Tank.health (Game.player1 ambush) - 1 <=
    Tank.health (Game.player1 (Game.check_collisions ambush)).
Proof.
  assert (L : List.length (Game.bullets ambush) = 1%nat) by (vm_compute; reflexivity).
  assert (F : Forall (fun c => Bullet.alive c &&
                               Game.strikes c (Game.player2 ambush) = false)
                     (Game.bullets ambush)).
  { vm_compute. constructor; [reflexivity | constructor]. }
  destruct (tick_cost_bounded ambush) as (H1 & _ & _ & H2).
  rewrite L in H1.
  split; [exact L|]. split; [exact F|]. split; [exact (H2 F) | exact H1].
Defined.
